(** * Field reconstruction of [load_files.py]

    A shallow embedding of the property resolver [load_property] and of
    the field painter [get_field] / [load_fields] of [src/load_files.py],
    with the theorems relating them to the written specification.

    Conventions of the embedding.
    - A numpy array is a nested list; its shape is the nesting's lengths.
    - The rank field holds integer labels (the rank of the occupying cell,
      or any other integer where no cell is present); a label is a [Z].
    - A rank is parsed from a file name by the pattern [\d+], hence a [nat].
    - Python objects live in a store ([gmap] from locations to arrays); a
      call is a computation over that store which either returns or raises.
    - A floating-point number is a real number or one of the special
      values of IEEE 754 (the negative zero, the two infinities, NaN);
      rounding, overflow and underflow are not modelled.  Arithmetic is
      performed by [load_property] only; the painter copies values, and
      is generic in their type. *)

From Stdlib Require Import Reals Lra.
From stdpp Require Import gmap strings list fin_maps sorting.

(** ** Exceptions and results *)

Inductive exn := IndexError | ValueError | TypeError.

Inductive result (A : Type) :=
| Ok (x : A)
| Raise (e : exn).
Arguments Ok {A} x.
Arguments Raise {A} e.

(** ** The object store *)

Definition loc := nat.

Inductive ndarray (V : Type) :=
| IntArr (xs : list nat)
| Arr1 (xs : list V)
| LabelArr3 (g : list (list (list Z)))
| Arr2 (a : list (list V))
| Arr3 (f : list (list (list V))).
Arguments IntArr {V} xs.
Arguments Arr1 {V} xs.
Arguments LabelArr3 {V} g.
Arguments Arr2 {V} a.
Arguments Arr3 {V} f.

Abbreviation heap V := (gmap loc (ndarray V)).

(** Computations over the store: state passing, with exceptions.  An
    exception leaves the store as it was when it was raised. *)
Definition M (V A : Type) := heap V → result A * heap V.

Definition ret {V A} (x : A) : M V A := λ h, (Ok x, h).

Definition raise {V A} (e : exn) : M V A := λ h, (Raise e, h).

Definition bind {V A B} (m : M V A) (k : A → M V B) : M V B :=
  λ h, match m h with
       | (Ok x, h') => k x h'
       | (Raise e, h') => (Raise e, h')
       end.

Notation "'let*' x ':=' m 'in' k" := (bind m (λ x, k))
  (at level 10, x name, m at level 100, k at level 200).

(** [for indx, x in enumerate(xs): body], counting from [i]. *)
Fixpoint for_enum {V A} (i : nat) (xs : list A) (body : nat → A → M V unit)
  : M V unit :=
  match xs with
  | [] => ret tt
  | x :: xs' => let* _ := body i x in for_enum (S i) xs' body
  end.

(** ** Shapes and masks *)

Definition shape2 {A} (g : list (list A)) : list nat := length <$> g.

Definition shape3 {A} (g : list (list (list A))) : list (list nat) :=
  shape2 <$> g.

(** [rankfield[indt] == rank]: the boolean mask of one snapshot. *)
Definition eq_mask (g : list (list Z)) (rank : nat) : list (list bool) :=
  fmap (M := list) (fmap (M := list) (λ x, bool_decide (x = Z.of_nat rank))) g.

(** [field[mask] = v] on matching shapes. *)
Definition assign_row {V} (mask : list bool) (v : V) (row : list V) : list V :=
  zip_with (λ (b : bool) x, if b then v else x) mask row.

Definition assign_mask {V} (mask : list (list bool)) (v : V)
  (field : list (list V)) : list (list V) :=
  zip_with (λ m row, assign_row m v row) mask field.

(** [a[t, i]], and [arr[t][y][x]]. *)
Definition entry {A} (a : list (list A)) (t i : nat) : option A :=
  match a !! t with
  | Some row => row !! i
  | None => None
  end.

Definition pixel {A} (arr : list (list (list A))) (t y x : nat) : option A :=
  match arr !! t with
  | Some ft => entry ft y x
  | None => None
  end.

Section Painter.
Context {V : Type} (zero : V).

(** [np.zeros(shape)] *)
Definition zeros2 (sh : list nat) : list (list V) :=
  (λ w, replicate w zero) <$> sh.

Definition zeros3 (sh : list (list nat)) : list (list (list V)) :=
  zeros2 <$> sh.

(** Allocation of a new array object. *)
Definition alloc (x : ndarray V) : M V loc :=
  λ h, let l := fresh (dom h) in (Ok l, <[l := x]> h).

(** [rankfield.shape] *)
Definition get_shape (rf : loc) : M V (list (list nat)) :=
  λ h, match h !! rf with
       | Some (LabelArr3 g) => (Ok (shape3 g), h)
       | _ => (Raise TypeError, h)
       end.

(** The elements of a one-dimensional array, as a loop iterates them. *)
Definition iter_axis (l : loc) : M V (list V) :=
  λ h, match h !! l with
       | Some (Arr1 xs) => (Ok xs, h)
       | _ => (Raise TypeError, h)
       end.

Definition iter_ranks (l : loc) : M V (list nat) :=
  λ h, match h !! l with
       | Some (IntArr xs) => (Ok xs, h)
       | _ => (Raise TypeError, h)
       end.

(** [a[indt, indr]] *)
Definition getitem2 (a : loc) (indt indr : nat) : M V V :=
  λ h, match h !! a with
       | Some (Arr2 av) =>
           match entry av indt indr with
           | Some v => (Ok v, h)
           | None => (Raise IndexError, h)
           end
       | _ => (Raise TypeError, h)
       end.

(** [rankfield[indt] == rank] *)
Definition mask_eq (rf : loc) (indt rank : nat) : M V (list (list bool)) :=
  λ h, match h !! rf with
       | Some (LabelArr3 g) =>
           match g !! indt with
           | Some gt => (Ok (eq_mask gt rank), h)
           | None => (Raise IndexError, h)
           end
       | _ => (Raise TypeError, h)
       end.

(** [a_field[indt][mask] = v]: the snapshot [a_field[indt]] is a view of
    [a_field], so the write lands in the object at [a_field].  Python
    takes [a_field[indt]] before it computes the mask; [a_field] and
    [rankfield] have one length, so either index fails when the other
    does, with the same exception. *)
Definition setitem_masked (a_field : loc) (indt : nat)
  (mask : list (list bool)) (v : V) : M V unit :=
  λ h, match h !! a_field with
       | Some (Arr3 f) =>
           match f !! indt with
           | Some ft =>
               if decide (shape2 mask = shape2 ft)
               then (Ok tt, <[a_field := Arr3 (<[indt := assign_mask mask v ft]> f)]> h)
               else (Raise IndexError, h)
           | None => (Raise IndexError, h)
           end
       | _ => (Raise TypeError, h)
       end.

(** The variables of [load_fields] that [get_field] closes over. *)
Record closure := Closure { rankfield : loc; times : loc; ranks : loc }.

(** [get_field], lines 132-150. *)
Definition get_field (env : closure) (a : loc) : M V loc :=
  let* sh := get_shape (rankfield env) in
  let* a_field := alloc (Arr3 (zeros3 sh)) in
  let* ts := iter_axis (times env) in
  let* _ := for_enum 0 ts (λ indt _,
    let* rs := iter_ranks (ranks env) in
    for_enum 0 rs (λ indr rank,
      let* v := getitem2 a indt indr in
      let* mask := mask_eq (rankfield env) indt rank in
      setitem_masked a_field indt mask v)) in
  ret a_field.

(** *** The loops of [get_field] on values

    What the two loops compute, stated on the arrays themselves: the
    inner loop over [enumerate(ranks)] on one snapshot, and the outer
    loop over [n] timesteps starting at [t]. *)

Fixpoint paint_ranks (row : list V) (indr : nat) (rs : list nat)
  (gt : list (list Z)) (ft : list (list V)) : list (list V) :=
  match rs with
  | [] => ft
  | rank :: rs' =>
      paint_ranks row (S indr) rs' gt
        (assign_mask (eq_mask gt rank) (default zero (row !! indr)) ft)
  end.

Fixpoint paint_times (av : list (list V)) (rs : list nat)
  (g : list (list (list Z))) (indt n : nat) (f : list (list (list V)))
  : list (list (list V)) :=
  match n with
  | 0 => f
  | S n' =>
      paint_times av rs g (S indt) n'
        (<[indt := paint_ranks (default [] (av !! indt)) 0 rs
                     (default [] (g !! indt)) (default [] (f !! indt))]> f)
  end.

(** The value one pixel ends with: the scalar of the last rank of the
    list that equals the pixel's label, or what the pixel held. *)
Fixpoint pixel_value (row : list V) (indr : nat) (rs : list nat)
  (label : Z) (old : V) : V :=
  match rs with
  | [] => old
  | rank :: rs' =>
      pixel_value row (S indr) rs' label
        (if bool_decide (label = Z.of_nat rank)
         then default zero (row !! indr) else old)
  end.

(** The field [get_field] builds from zeros over [n] timesteps. *)
Definition paint (av : list (list V)) (rs : list nat)
  (g : list (list (list Z))) (n : nat) : list (list (list V)) :=
  paint_times av rs g 0 n (zeros3 (shape3 g)).

(** The bodies of the two loops, as [get_field] has them. *)
Definition inner_body (env : closure) (a a_field : loc) (indt : nat)
  : nat → nat → M V unit :=
  λ indr rank,
    let* v := getitem2 a indt indr in
    let* mask := mask_eq (rankfield env) indt rank in
    setitem_masked a_field indt mask v.

Definition outer_body (env : closure) (a a_field : loc)
  : nat → V → M V unit :=
  λ indt _,
    let* rs := iter_ranks (ranks env) in
    for_enum 0 rs (inner_body env a a_field indt).
End Painter.

(** [m] writes to no object but the one at [l]. *)
Definition frames {V A} (l : loc) (m : M V A) : Prop :=
  ∀ h, delete l (snd (m h)) = delete l h.

(** What a caller of [get_field] observes: the exception, or the array
    held by the object that was returned. *)
Definition observe {V} (r : result loc * heap V) : result (option (ndarray V)) :=
  match r with
  | (Ok l, h) => Ok (h !! l)
  | (Raise e, _) => Raise e
  end.

(** [r] occurs in [rs] at position [i] and at no later position. *)
Definition last_index (rs : list nat) (r i : nat) : Prop :=
  rs !! i = Some r ∧ ∀ j, i < j → rs !! j ≠ Some r.

(** The store holds the painter's inputs: the three arrays [get_field]
    closes over, of the kinds [load_fields] binds them to, and [a]. *)
Record holds {V} (h : heap V) (env : closure) (a : loc)
  (g : list (list (list Z))) (ts : list V) (rs : list nat)
  (av : list (list V)) : Prop := Holds {
  holds_rankfield : h !! rankfield env = Some (LabelArr3 g);
  holds_times : h !! times env = Some (Arr1 ts);
  holds_ranks : h !! ranks env = Some (IntArr rs);
  holds_a : h !! a = Some (Arr2 av)
}.

(** Two stores that hold the same inputs, at possibly different places,
    and the same field under construction. *)
Record related {V} (env env' : closure) (a a' l l' : loc)
  (g : list (list (list Z))) (ts : list V) (rs : list nat)
  (av : list (list V)) (h h' : heap V) : Prop := Related {
  related_left : holds h env a g ts rs av;
  related_right : holds h' env' a' g ts rs av;
  related_field : h !! l = h' !! l'
}.

(** Two computations that, from related stores, end alike in related
    stores. *)
Definition simulates {V A} (R : heap V → heap V → Prop) (m m' : M V A) : Prop :=
  ∀ h h', R h h' → fst (m h) = fst (m' h') ∧ R (snd (m h)) (snd (m' h')).

(** Valid painter input: one snapshot per timestep, and [a] of shape
    [len(times), len(ranks)]. *)
Record valid_input {V} (g : list (list (list Z))) (ts : list V)
  (rs : list nat) (av : list (list V)) : Prop := ValidInput {
  valid_snapshots : length g = length ts;
  valid_rows : length av = length ts;
  valid_columns : Forall (λ row, length row = length rs) av
}.

(** ** The property resolver *)

(** Results of computations that do not touch the store. *)
Definition rbind {A B} (m : result A) (k : A → result B) : result B :=
  match m with
  | Ok x => k x
  | Raise e => Raise e
  end.

Notation "'let+' x ':=' m 'in' k" := (rbind m (λ x, k))
  (at level 10, x name, m at level 100, k at level 200).

(** *** Floating-point numbers

    A value of a [float64] array: a finite number, or one of the special
    values of IEEE 754.  [Fin 0] is the positive zero, [NegZero] the
    negative one.  An operation on finite numbers returns the real
    result: rounding, overflow and underflow are not modelled. *)
Inductive float :=
| Fin (x : R)
| NegZero
| PInf
| NInf
| NaN.

Definition is_nan (f : float) : bool :=
  match f with NaN => true | _ => false end.

Definition is_inf (f : float) : bool :=
  match f with PInf | NInf => true | _ => false end.

Definition is_zero (f : float) : bool :=
  match f with
  | Fin x => if Req_dec_T x 0 then true else false
  | NegZero => true
  | _ => false
  end.

(** The sign bit of a float that is not NaN. *)
Definition signbit (f : float) : bool :=
  match f with
  | Fin x => if Rlt_dec x 0 then true else false
  | NegZero | NInf => true
  | PInf | NaN => false
  end.

(** The real number of a finite float. *)
Definition real (f : float) : R :=
  match f with Fin x => x | _ => 0%R end.

(** The zero and the infinity of sign bit [s], and the number [a] or its
    opposite. *)
Definition signed_zero (s : bool) : float := if s then NegZero else Fin 0.

Definition signed_inf (s : bool) : float := if s then NInf else PInf.

Definition signed (s : bool) (a : R) : float :=
  Fin (if s then (- a)%R else a).

(** A list of finite numbers. *)
Definition floats (xs : list R) : list float := Fin <$> xs.

(** One table of [positions]: the data frame of one cell.  [rank_col] is
    the cell's rank, the key [load_pos] sorts the tables by; the other
    fields are the columns [load_property] reads, one value per timestep.
    The remaining columns are read by no function modelled here. *)
Record table := Table {
  rank_col : nat;
  v0_col : list float;
  v1_col : list float;
  S0_col : list float;
  S1_col : list float;
  S0full_col : list float;
  S1full_col : list float
}.

(** An input directory, as the two loaders present it: [load_pos] gives
    the tables and the ranks, both in ascending order of rank, and
    [load_rankfield] the rank field and the timestep axis. *)
Record directory := Directory {
  load_pos : list table * list nat;
  load_rankfield : list (list (list Z)) * list float
}.

(** What a call returns: nothing, one array, or a pair of arrays. *)
Inductive value :=
| VNone
| VArr (a : list (list float))
| VPair (a0 a1 : list (list float)).

Definition arrays_of (v : value) : list (list (list float)) :=
  match v with
  | VNone => []
  | VArr a => [a]
  | VPair a0 a1 => [a0; a1]
  end.

Section Resolver.
Local Open Scope R_scope.

(** [np.sign]: [-1], [0] or [1]; the sign of either zero is the
    positive zero, and the sign of NaN is NaN. *)
Definition sign (f : float) : float :=
  match f with
  | Fin x =>
      if Rlt_dec 0 x then Fin 1 else if Rlt_dec x 0 then Fin (-1) else Fin 0
  | NegZero => Fin 0
  | PInf => Fin 1
  | NInf => Fin (-1)
  | NaN => NaN
  end.

(** [np.abs] *)
Definition absolute (f : float) : float :=
  match f with
  | Fin x => Fin (Rabs x)
  | NegZero => Fin 0
  | PInf | NInf => PInf
  | NaN => NaN
  end.

(** [np.arctan] *)
Definition arctan (f : float) : float :=
  match f with
  | Fin x => Fin (atan x)
  | NegZero => NegZero
  | PInf => Fin (PI / 2)
  | NInf => Fin (- (PI / 2))
  | NaN => NaN
  end.

(** [x / y] on arrays of floats: a division by zero raises nothing; it
    gives an infinity, and NaN for [0 / 0] and for a quotient of
    infinities. *)
Definition divide (x y : float) : float :=
  let s := xorb (signbit x) (signbit y) in
  if is_nan x || is_nan y then NaN
  else if is_inf x then (if is_inf y then NaN else signed_inf s)
  else if is_inf y then signed_zero s
  else if is_zero y then (if is_zero x then NaN else signed_inf s)
  else if is_zero x then signed_zero s
  else Fin (real x / real y).

(** [x + y] *)
Definition add (x y : float) : float :=
  if is_nan x || is_nan y then NaN
  else if is_inf x then
    (if is_inf y && xorb (signbit x) (signbit y) then NaN else x)
  else if is_inf y then y
  else if is_zero x && is_zero y then signed_zero (signbit x && signbit y)
  else Fin (real x + real y).

(** [np.multiply] *)
Definition multiply (x y : float) : float :=
  let s := xorb (signbit x) (signbit y) in
  if is_nan x || is_nan y then NaN
  else if is_inf x || is_inf y then
    (if is_zero x || is_zero y then NaN else signed_inf s)
  else if is_zero x || is_zero y then signed_zero s
  else Fin (real x * real y).

(** [np.arctan2(y, x)]: the angle of the point [(x, y)], with the sign
    of [y]; the special cases are those of C's [atan2]. *)
Definition arctan2 (y x : float) : float :=
  let s := signbit y in
  if is_nan y || is_nan x then NaN
  else if is_inf y then
    match x with
    | PInf => signed s (PI / 4)
    | NInf => signed s (3 * PI / 4)
    | _ => signed s (PI / 2)
    end
  else if is_zero y || is_inf x then
    (if signbit x then signed s PI else signed_zero s)
  else if is_zero x then signed s (PI / 2)
  else if signbit x then
    (if s then Fin (atan (real y / real x) - PI)
     else Fin (atan (real y / real x) + PI))
  else Fin (atan (real y / real x)).

(** Element-wise operations on arrays of one shape. *)
Definition ufunc1 (f : float → float) (a : list (list float))
  : list (list float) :=
  fmap (M := list) (fmap (M := list) f) a.

Definition ufunc2 (f : float → float → float) (a b : list (list float))
  : list (list float) :=
  zip_with (zip_with f) a b.

(** [arr[:, rank] = series] on an array with [n] columns.  The column
    count is kept beside the rows, which do not determine it when there
    is no row.  A series of length one is broadcast. *)
Definition setcol (n : nat) (arr : list (list float)) (rank : nat)
  (series : list float) : result (list (list float)) :=
  if decide (rank < n)%nat then
    if decide (length series = length arr) then
      Ok (zip_with (λ row x, <[rank := x]> row) arr series)
    else
      match series with
      | [x] => Ok ((λ row, <[rank := x]> row) <$> arr)
      | _ => Raise ValueError
      end
  else Raise IndexError.

(** [positions[rank]] *)
Definition getitem (positions : list table) (rank : nat) : result table :=
  match positions !! rank with
  | Some tb => Ok tb
  | None => Raise IndexError
  end.

(** [for rank in ranks: c0[:, rank] = positions[rank][k0];
                        c1[:, rank] = positions[rank][k1]] *)
Fixpoint fill_columns (positions : list table) (n : nat)
  (k0 k1 : table → list float) (rs : list nat)
  (c : list (list float) * list (list float))
  : result (list (list float) * list (list float)) :=
  match rs with
  | [] => Ok c
  | rank :: rs' =>
      let+ tb0 := getitem positions rank in
      let+ c0 := setcol n (fst c) rank (k0 tb0) in
      let+ tb1 := getitem positions rank in
      let+ c1 := setcol n (snd c) rank (k1 tb1) in
      fill_columns positions n k0 k1 rs' (c0, c1)
  end.

(** The block every branch of [load_property] starts with: two arrays
    [np.zeros([len(times), len(ranks)])], filled column by column. *)
Definition load_columns (positions : list table) (ranks : list nat)
  (times : list float) (k0 k1 : table → list float)
  : result (list (list float) * list (list float)) :=
  let c0 := zeros2 (Fin 0) (replicate (length times) (length ranks)) in
  let c1 := zeros2 (Fin 0) (replicate (length times) (length ranks)) in
  fill_columns positions (length ranks) k0 k1 ranks (c0, c1).

(** [np.multiply(np.sign(S1), np.arctan(S0/np.abs(S1))/2.0 + np.pi/4.0)] *)
Definition nem_orient (S0 S1 : list (list float)) : list (list float) :=
  ufunc2 multiply (ufunc1 sign S1)
    (ufunc1 (λ x, add x (Fin (PI / 4)))
       (ufunc1 (λ x, divide x (Fin 2))
          (ufunc1 arctan (ufunc2 divide S0 (ufunc1 absolute S1))))).

(** [load_property], lines 162-234. *)
Definition load_property (input_dir : directory) (prop : string)
  : result value :=
  let '(positions, ranks) := load_pos input_dir in
  let '(rankfield, times) := load_rankfield input_dir in
  if decide (prop = "velocity") then
    let+ c := load_columns positions ranks times v0_col v1_col in
    let '(v0, v1) := c in
    Ok (VPair v0 v1)
  else if decide (prop = "normalised nematic") then
    let+ c := load_columns positions ranks times S0_col S1_col in
    let '(S0, S1) := c in
    Ok (VPair S0 S1)
  else if decide (prop = "nematic") then
    let+ c :=
      load_columns positions ranks times S0full_col S1full_col in
    let '(S0, S1) := c in
    Ok (VPair S0 S1)
  else if decide (prop = "velocity angle") then
    let+ c := load_columns positions ranks times v0_col v1_col in
    let '(v0, v1) := c in
    let vel_orient := ufunc2 arctan2 v1 v0 in
    Ok (VArr vel_orient)
  else if decide (prop = "nematic angle") then
    let+ c :=
      load_columns positions ranks times S0full_col S1full_col in
    let '(S0, S1) := c in
    Ok (VArr (nem_orient S0 S1))
  else Ok VNone.
End Resolver.

(** ** [load_fields] *)

(** What [load_fields] returns: nothing, a field, or a pair of fields. *)
Inductive fields :=
| FNone
| FArr (a_field : loc)
| FPair (a_field0 a_field1 : loc).

Definition lift {V A} (r : result A) : M V A :=
  λ h, (r, h).

Definition prop2D : list string :=
  ["velocity"; "normalised nematic"; "nematic"].

Definition prop1D : list string := ["velocity angle"; "nematic angle"].

(** [load_fields], lines 102-160.  The arrays the loaders return, and
    those [load_property] returns, become objects of the store. *)
Definition load_fields (input_dir : directory) (prop : string)
  : M float fields :=
  let '(positions, ranks) := load_pos input_dir in
  let '(rankfield, times) := load_rankfield input_dir in
  let* ranks := alloc (IntArr ranks) in
  let* rankfield := alloc (LabelArr3 rankfield) in
  let* times := alloc (Arr1 times) in
  let get_field := get_field (Fin 0) (Closure rankfield times ranks) in
  if bool_decide (prop ∈ prop2D) then
    let* r := lift (load_property input_dir prop) in
    match r with
    | VPair prop0 prop1 =>
        let* prop0 := alloc (Arr2 prop0) in
        let* prop1 := alloc (Arr2 prop1) in
        let* a_field0 := get_field prop0 in
        let* a_field1 := get_field prop1 in
        ret (FPair a_field0 a_field1)
    | _ => raise TypeError
    end
  else if bool_decide (prop ∈ prop1D) then
    let* r := lift (load_property input_dir prop) in
    match r with
    | VArr a =>
        let* a := alloc (Arr2 a) in
        let* a_field := get_field a in
        ret (FArr a_field)
    | _ => raise TypeError
    end
  else ret FNone.

(** The five names [load_property] and [load_fields] recognise. *)
Definition recognised : list string := prop2D ++ prop1D.

(** ** Notions used to state the properties of the resolver *)

(** An array of shape [N, n]. *)
Definition matrix {A} (N n : nat) (arr : list (list A)) : Prop :=
  length arr = N ∧ Forall (λ row, length row = n) arr.

(** The loop of [fill_columns], seen from one of its two arrays. *)
Fixpoint fill_column (positions : list table) (n : nat)
  (k : table → list float) (rs : list nat) (c : list (list float))
  : result (list (list float)) :=
  match rs with
  | [] => Ok c
  | rank :: rs' =>
      let+ tb := getitem positions rank in
      let+ c' := setcol n c rank (k tb) in
      fill_column positions n k rs' c'
  end.

(** Every column of a table that [load_property] reads has one value per
    timestep. *)
Definition full_table (N : nat) (tb : table) : Prop :=
  length (v0_col tb) = N ∧ length (v1_col tb) = N ∧
  length (S0_col tb) = N ∧ length (S1_col tb) = N ∧
  length (S0full_col tb) = N ∧ length (S1full_col tb) = N.

(** What the loaders deliver: one table per rank, each with one row per
    timestep. *)
Record well_formed (input_dir : directory) : Prop := WellFormed {
  wf_tables : length (fst (load_pos input_dir)) = length (snd (load_pos input_dir));
  wf_columns :
    Forall (full_table (length (snd (load_rankfield input_dir))))
      (fst (load_pos input_dir))
}.

(** The loaders' contract on order: the rank list is strictly ascending,
    and the table at each position is the table of the rank at that
    position. *)
Record aligned (input_dir : directory) : Prop := Aligned {
  aligned_wf : well_formed input_dir;
  aligned_sorted : StronglySorted lt (snd (load_pos input_dir));
  aligned_tables : rank_col <$> fst (load_pos input_dir) = snd (load_pos input_dir)
}.

(** The nematic angle of one pair of components, as the resolver
    computes it: [sign(S1) * (atan(S0 / |S1|) / 2 + π/4)] in floating-point
    arithmetic. *)
Definition nematic_angle (s0 s1 : float) : float :=
  multiply (sign s1)
    (add (divide (arctan (divide s0 (absolute s1))) (Fin 2)) (Fin (PI / 4))).

(** The sign of a real number, and the angle of the point [(x, y)] of the
    plane, in [(-π, π]]. *)
Definition Rsign (x : R) : R :=
  if Rlt_dec 0 x then 1%R else if Rlt_dec x 0 then (-1)%R else 0%R.

Definition atan2 (y x : R) : R :=
  if Rlt_dec 0 x then atan (y / x)
  else if Rlt_dec x 0 then
    if Rle_dec 0 y then (atan (y / x) + PI)%R else (atan (y / x) - PI)%R
  else if Rlt_dec 0 y then (PI / 2)%R
  else if Rlt_dec y 0 then (- (PI / 2))%R
  else 0%R.


(** The attribute time series of one cell that each property name stands
    for, after the table of recognised names of the specification: one
    series per returned array. *)
Definition series_of (prop : string) : list (table → list float) :=
  if decide (prop = "velocity") then [v0_col; v1_col]
  else if decide (prop = "normalised nematic") then [S0_col; S1_col]
  else if decide (prop = "nematic") then [S0full_col; S1full_col]
  else if decide (prop = "velocity angle") then
    [λ tb, zip_with arctan2 (v1_col tb) (v0_col tb)]
  else if decide (prop = "nematic angle") then
    [λ tb, zip_with nematic_angle (S0full_col tb) (S1full_col tb)]
  else [].

(** [load_property] on a recognised name, in two steps: the two columns
    it loads, and what it returns from the two filled arrays. *)
Definition columns_of (prop : string)
  : (table → list float) * (table → list float) :=
  if decide (prop = "velocity") then (v0_col, v1_col)
  else if decide (prop = "normalised nematic") then (S0_col, S1_col)
  else if decide (prop = "nematic") then (S0full_col, S1full_col)
  else if decide (prop = "velocity angle") then (v0_col, v1_col)
  else (S0full_col, S1full_col).

Definition finish (prop : string) (c0 c1 : list (list float)) : value :=
  if decide (prop = "velocity angle") then VArr (ufunc2 arctan2 c1 c0)
  else if decide (prop = "nematic angle") then VArr (nem_orient c0 c1)
  else VPair c0 c1.

(** ** Sample inputs *)

(** A store for the painter over integer scalars: one snapshot of one
    row, the ranks 1 and 2, and a scalar array with one row. *)
Definition sparse_env : closure := Closure 0 1 2.

Definition sparse_rankfield : list (list (list Z)) := [[[1; 2; 9]]]%Z.

Definition sparse_a : list (list Z) := [[5; 7]]%Z.

Definition sparse_store : heap Z :=
  <[0 := LabelArr3 sparse_rankfield]>
    (<[1 := Arr1 [0%Z]]>
       (<[2 := IntArr [1; 2]]>
          (<[3 := Arr2 sparse_a]> ∅))).

(** Two cells of ranks 0 and 1 over two timesteps; rank 0 covers the left
    pixel and rank 1 the right pixel of a grid of one row. *)
Definition left_cell : table :=
  (Table 0 (floats [1; 3]) (floats [0; 0]) (floats [1; 0])
    (floats [0; 1]) (floats [0; 0]) (floats [1; -1]))%R.

Definition right_cell : table :=
  (Table 1 (floats [2; 4]) (floats [0; 0]) (floats [0; 1])
    (floats [1; 0]) (floats [2; 0]) (floats [2; 1]))%R.

Definition two_cells : directory :=
  Directory ([left_cell; right_cell], [0; 1])
    ([[[0; 1]]; [[0; 1]]]%Z, floats [0; 1]%R).

(** The two velocity arrays [load_property] computes for [two_cells], and
    a store that holds the painter's inputs for the first one. *)
Definition two_cells_v0 : list (list float) := floats <$> [[1; 2]; [3; 4]]%R.

Definition two_cells_v1 : list (list float) := floats <$> [[0; 0]; [0; 0]]%R.

Definition two_cells_store : heap float :=
  <[0 := LabelArr3 (fst (load_rankfield two_cells))]>
    (<[1 := Arr1 (snd (load_rankfield two_cells))]>
       (<[2 := IntArr (snd (load_pos two_cells))]>
          (<[3 := Arr2 two_cells_v0]> ∅))).

(** Two cells of ranks 0 and 2, one timestep. *)
Definition gap_cells : directory :=
  Directory
    ([Table 0 (floats [1]) (floats [0]) (floats [1]) (floats [0])
        (floats [0]) (floats [1]);
      Table 2 (floats [2]) (floats [0]) (floats [0]) (floats [1])
        (floats [2]) (floats [1])]%R,
     [0; 2])
    ([[[0; 2]]]%Z, floats [0]%R).

(** ** Notions used to state further properties of the painter *)

(** Timestep [t] can be painted: the rank field has a snapshot [t], and
    the scalar array a row [t] with a column for every position of the
    rank list. *)
Definition step_ok {V} (g : list (list (list Z))) (rs : list nat)
  (av : list (list V)) (t : nat) : Prop :=
  t < length g ∧ is_Some (av !! t) ∧ length rs ≤ length (default [] (av !! t)).

#[global] Instance step_ok_dec {V} g rs (av : list (list V)) t :
  Decision (step_ok g rs av t).
Proof. unfold step_ok. apply _. Defined.

(** The inputs on which [get_field] returns: there is no rank, or every
    timestep can be painted. *)
Definition paintable {V} (g : list (list (list Z))) (ts : list V)
  (rs : list nat) (av : list (list V)) : Prop :=
  rs = [] ∨ Forall (step_ok g rs av) (seq 0 (length ts)).

(** ** Notions used to state further properties of [load_fields] *)

(** [m] keeps every object of the store it starts in. *)
Definition extends {V A} (m : M V A) : Prop := ∀ h, h ⊆ snd (m h).

(** The fields a call of [load_fields] returned. *)
Definition fields_of (fs : fields) : list loc :=
  match fs with
  | FNone => []
  | FArr a_field => [a_field]
  | FPair a_field0 a_field1 => [a_field0; a_field1]
  end.

(** ** Notions used to state further properties of the resolver *)

(** A series that can be written to a column of [N] rows: one value per
    row, or a single value, which is broadcast. *)
Definition fits (N : nat) (series : list float) : Prop :=
  length series = N ∨ length series = 1.

#[global] Instance fits_dec N series : Decision (fits N series).
Proof. unfold fits. apply _. Defined.

(** What row [t] of a column of [N] rows holds once [series] is written
    to the column. *)
Definition written (N : nat) (series : list float) (t : nat)
  : option float :=
  if decide (length series = N) then series !! t else head series.

(** ** [load_pos]

    The input is what the loop over [glob.glob(file_pattern)] sees: the
    matching paths, with ASCII names, in the order [glob] yields them,
    each with the table [pd.read_csv] and the column selection give for
    it.  A data frame has one length for all its columns; [rank_col] is
    the first entry of its column [rank], which a frame without rows does
    not have. *)
Module Loader.

(** [\d] *)
Definition is_digit (c : Ascii.ascii) : bool :=
  (48 <=? Ascii.nat_of_ascii c)%nat && (Ascii.nat_of_ascii c <=? 57)%nat.

(** [re.findall(r'\d+', s)]: the maximal runs of digits of [s], from left
    to right; [cur] is the run being read. *)
Fixpoint findall_from (cur : string) (s : string) : list string :=
  match s with
  | EmptyString => if decide (cur = "") then [] else [cur]
  | String c s' =>
      if is_digit c then findall_from (cur +:+ String c "") s'
      else if decide (cur = "") then findall_from "" s'
           else cur :: findall_from "" s'
  end.

Definition findall_digits (s : string) : list string := findall_from "" s.

(** [int(s)] on a run of digits *)
Fixpoint int_from (acc : nat) (s : string) : nat :=
  match s with
  | EmptyString => acc
  | String c s' => int_from (10 * acc + (Ascii.nat_of_ascii c - 48)) s'
  end.

Definition int (s : string) : nat := int_from 0 s.

(** [int(re.findall(r'\d+', filename)[-1])] *)
Definition rank_of (filename : string) : result nat :=
  match last (findall_digits filename) with
  | Some run => Ok (int run)
  | None => Raise IndexError
  end.

(** The loop over the files: both lists grow by one element per file. *)
Fixpoint read_files (files : list (string * table))
  (positions_raw : list table) (ranks : list nat)
  : result (list table * list nat) :=
  match files with
  | [] => Ok (positions_raw, ranks)
  | (filename, tmp) :: files' =>
      let positions_raw := positions_raw ++ [tmp] in
      let+ rank := rank_of filename in
      read_files files' positions_raw (ranks ++ [rank])
  end.

(** A stable sort by a key: an element is put before the first element
    of the sorted rest whose key is not smaller. *)
Fixpoint insert_by {A} (key : A → nat) (x : A) (l : list A) : list A :=
  match l with
  | [] => [x]
  | y :: l' =>
      if decide (key x ≤ key y) then x :: y :: l'
      else y :: insert_by key x l'
  end.

Definition sort_by {A} (key : A → nat) (l : list A) : list A :=
  foldr (insert_by key) [] l.

(** [np.argsort(ranks)]: the positions of the elements in ascending
    order.  (numpy's order among equal elements is not fixed; it does not
    show in [ranks[sorted_index]].) *)
Definition argsort (ranks : list nat) : list nat :=
  fst <$> sort_by snd (zip (seq 0 (length ranks)) ranks).

(** [ranks[sorted_index]] *)
Definition take_indices (ranks : list nat) (sorted_index : list nat)
  : list nat :=
  (λ i, ranks !!! i) <$> sorted_index.

(** [elem.iloc[0]['rank']] *)
Definition first_rank (elem : table) : result nat :=
  match v0_col elem with
  | [] => Raise IndexError
  | _ :: _ => Ok (rank_col elem)
  end.

(** The keys of a list, computed before it is sorted. *)
Fixpoint keys_of (l : list table) : result (list nat) :=
  match l with
  | [] => Ok []
  | elem :: l' =>
      let+ k := first_rank elem in
      let+ ks := keys_of l' in
      Ok (k :: ks)
  end.

(** [l.sort(key=...)] *)
Definition list_sort (l : list table) : result (list table) :=
  let+ ks := keys_of l in
  Ok (snd <$> sort_by fst (zip ks l)).

(** [load_pos], lines 17-52. *)
Definition load_pos (files : list (string * table))
  : result (list table * list nat) :=
  let+ read := read_files files [] [] in
  let '(positions_raw, ranks) := read in
  let sorted_index := argsort ranks in
  let+ positions_raw := list_sort positions_raw in
  let ranks := take_indices ranks sorted_index in
  Ok (positions_raw, ranks).

(** The path of the file of rank [digits] under [input_dir]. *)
Definition path_of (input_dir digits : string) : string :=
  input_dir +:+ "/positions/neo_positions_p" +:+ digits +:+ ".csv".

Definition all_digits (s : string) : Prop :=
  Forall (λ c, is_digit c = true) (String.list_ascii_of_string s).

Definition no_digit (s : string) : Prop :=
  Forall (λ c, is_digit c = false) (String.list_ascii_of_string s).

End Loader.

(** ** Further sample inputs *)

(** The store of [sparse_store] with no rank loaded. *)
Definition no_rank_store : heap Z :=
  <[0 := LabelArr3 sparse_rankfield]>
    (<[1 := Arr1 [0%Z]]>
       (<[2 := IntArr []]>
          (<[3 := Arr2 sparse_a]> ∅))).

(** A rank field of two snapshots with a time axis of one entry. *)
Definition long_rankfield : list (list (list Z)) :=
  [[[1; 2; 9]]; [[2; 1; 1]]]%Z.

Definition long_store : heap Z :=
  <[0 := LabelArr3 long_rankfield]>
    (<[1 := Arr1 [0%Z]]>
       (<[2 := IntArr [1; 2]]>
          (<[3 := Arr2 sparse_a]> ∅))).

(** A directory without position files. *)
Definition no_cells : directory :=
  Directory ([], []) ([[[0; 1]]]%Z, floats [0]%R).

(** One cell whose table has two rows, over three timesteps. *)
Definition ragged_cell : table :=
  (Table 0 (floats [1; 2]) (floats [0; 0]) (floats [1; 0])
    (floats [0; 1]) (floats [0; 0]) (floats [1; 1]))%R.

Definition ragged_cells : directory :=
  Directory ([ragged_cell], [0])
    ([[[0]]; [[0]]; [[0]]]%Z, floats [0; 1; 2]%R).

(** One cell whose table has one row, over three timesteps. *)
Definition one_row_cell : table :=
  (Table 0 (floats [5]) (floats [6]) (floats [1]) (floats [0])
    (floats [0]) (floats [1]))%R.

Definition one_row_cells : directory :=
  Directory ([one_row_cell], [0])
    ([[[0]]; [[0]]; [[0]]]%Z, floats [0; 1; 2]%R).


Definition two_cells_velocity_angle : list (list float) :=
  ufunc2 arctan2 (floats <$> [[0; 0]; [0; 0]]%R)
    (floats <$> [[1; 2]; [3; 4]]%R).


(** Two position files, met in descending order of rank. *)
Definition two_files : list (string * table) :=
  [("run3/positions/neo_positions_p1.csv", right_cell);
   ("run3/positions/neo_positions_p0.csv", left_cell)].

(** * Proofs *)

(** ** Shapes, masks and pixels *)

Lemma shape2_eq_mask (gt : list (list Z)) (rank : nat) :
  shape2 (eq_mask gt rank) = shape2 gt.
Proof.
  unfold shape2, eq_mask. rewrite <- list_fmap_compose.
  apply list_fmap_ext. intros _ row _. simpl. apply length_fmap.
Qed.

Lemma shape2_assign_mask {V} (mask : list (list bool)) (v : V) :
  ∀ ft : list (list V),
    shape2 mask = shape2 ft → shape2 (assign_mask mask v ft) = shape2 ft.
Proof.
  induction mask as [|m mask IH]; intros [|row ft] Hsh; simplify_eq/=; [done|].
  f_equal.
  - unfold assign_row. rewrite length_zip_with. lia.
  - by apply IH.
Qed.

Lemma entry_eq_mask (gt : list (list Z)) (rank y x : nat) :
  entry (eq_mask gt rank) y x
  = (λ label, bool_decide (label = Z.of_nat rank)) <$> entry gt y x.
Proof.
  unfold entry, eq_mask. rewrite list_lookup_fmap.
  destruct (gt !! y) as [row|]; simpl; [|done].
  by rewrite list_lookup_fmap.
Qed.

Lemma entry_assign_mask {V} (mask : list (list bool)) (v : V)
  (ft : list (list V)) (y x : nat) (b : bool) (old : V) :
  entry mask y x = Some b → entry ft y x = Some old →
  entry (assign_mask mask v ft) y x = Some (if b then v else old).
Proof.
  unfold entry, assign_mask, assign_row. intros Hm Hf.
  rewrite lookup_zip_with.
  destruct (mask !! y) as [m|]; [|done].
  destruct (ft !! y) as [row|]; [|done]. simpl.
  rewrite lookup_zip_with, Hm, Hf. done.
Qed.

Section PainterProofs.
Context {V : Type} (zero : V).
Implicit Types (h : heap V) (g : list (list (list Z))) (gt : list (list Z)).
Implicit Types (f : list (list (list V))) (ft : list (list V)).
Implicit Types (av : list (list V)) (row ts : list V) (rs : list nat).

Lemma entry_zeros2 (sh : list nat) (y x w : nat) :
  sh !! y = Some w → (x < w)%nat → entry (zeros2 zero sh) y x = Some zero.
Proof.
  intros Hy Hx. unfold entry, zeros2. rewrite list_lookup_fmap, Hy. simpl.
  by apply lookup_replicate_2.
Qed.

Lemma shape2_zeros2 (sh : list nat) : shape2 (zeros2 zero sh) = sh.
Proof.
  unfold shape2, zeros2. rewrite <- list_fmap_compose.
  rewrite <- (list_fmap_id sh) at 2. apply list_fmap_ext.
  intros _ w _. simpl. apply length_replicate.
Qed.

Lemma shape3_zeros3 (sh : list (list nat)) : shape3 (zeros3 zero sh) = sh.
Proof.
  unfold shape3, zeros3. rewrite <- list_fmap_compose.
  rewrite <- (list_fmap_id sh) at 2. apply list_fmap_ext.
  intros _ w _. simpl. apply shape2_zeros2.
Qed.

(** *** The inner loop on values *)

Lemma shape2_paint_ranks row rs gt :
  ∀ indr ft, shape2 gt = shape2 ft →
             shape2 (paint_ranks zero row indr rs gt ft) = shape2 ft.
Proof.
  induction rs as [|rank rs IH]; intros indr ft Hsh; simpl; [done|].
  rewrite IH.
  - apply shape2_assign_mask. by rewrite shape2_eq_mask.
  - rewrite shape2_assign_mask; [done|]. by rewrite shape2_eq_mask.
Qed.

Lemma entry_paint_ranks row rs gt y x label :
  entry gt y x = Some label →
  ∀ indr ft old,
    entry ft y x = Some old →
    entry (paint_ranks zero row indr rs gt ft) y x
    = Some (pixel_value zero row indr rs label old).
Proof.
  intros Hg. induction rs as [|rank rs IH]; intros indr ft old Hf; simpl.
  - done.
  - apply IH. apply entry_assign_mask; [|done].
    by rewrite entry_eq_mask, Hg.
Qed.

Lemma pixel_value_absent row rs label :
  (∀ r, r ∈ rs → label ≠ Z.of_nat r) →
  ∀ indr old, pixel_value zero row indr rs label old = old.
Proof.
  induction rs as [|rank rs IH]; intros Hno indr old; simpl; [done|].
  rewrite bool_decide_eq_false_2 by (apply Hno; left).
  apply IH. intros r Hr. apply Hno. by right.
Qed.

Lemma pixel_value_last row rs r :
  ∀ i indr old,
    last_index rs r i →
    pixel_value zero row indr rs (Z.of_nat r) old
    = default zero (row !! (indr + i)%nat).
Proof.
  induction rs as [|rank rs IH]; intros i indr old [Hi Hlast].
  - done.
  - destruct i as [|i]; simpl in *.
    + simplify_eq. rewrite bool_decide_eq_true_2 by done.
      rewrite pixel_value_absent; [by rewrite Nat.add_0_r|].
      intros r' Hr' Heq. apply Nat2Z.inj in Heq. subst r'.
      apply list_elem_of_lookup in Hr' as [j Hj].
      by apply (Hlast (S j)); [lia|].
    + rewrite (IH i (S indr)).
      * f_equal. f_equal. lia.
      * split; [done|]. intros j Hj. apply (Hlast (S j)). lia.
Qed.
End PainterProofs.

(** ** The loops of [get_field] on the store *)

Lemma shape3_lookup {A B} (ga : list (list (list A)))
  (fb : list (list (list B))) (t : nat) (sa : list (list A)) :
  shape3 ga = shape3 fb → ga !! t = Some sa →
  ∃ sb, fb !! t = Some sb ∧ shape2 sa = shape2 sb.
Proof.
  unfold shape3. intros Hsh Hg.
  assert ((shape2 <$> fb) !! t = Some (shape2 sa)) as Hf.
  { by rewrite <- Hsh, list_lookup_fmap, Hg. }
  rewrite list_lookup_fmap in Hf.
  destruct (fb !! t) as [sb|]; simplify_eq/=. eauto.
Qed.

Section PainterRun.
Context {V : Type} (zero : V).
Implicit Types (h : heap V) (g : list (list (list Z))) (gt : list (list Z)).
Implicit Types (f : list (list (list V))) (ft : list (list V)).
Implicit Types (av : list (list V)) (row ts : list V) (rs : list nat).

Lemma get_field_unfold env a :
  get_field zero env a
  = (let* sh := get_shape (rankfield env) in
     let* a_field := alloc (Arr3 (zeros3 zero sh)) in
     let* ts := iter_axis (times env) in
     let* _ := for_enum 0 ts (outer_body env a a_field) in
     ret a_field).
Proof. reflexivity. Qed.

(** *** One step of each primitive *)

Lemma bind_ok {A B} (m : M V A) (k : A → M V B) h x h' :
  m h = (Ok x, h') → bind m k h = k x h'.
Proof. unfold bind. by intros ->. Qed.

Lemma get_shape_ok rf h g :
  h !! rf = Some (LabelArr3 g) → get_shape rf h = (Ok (shape3 g), h).
Proof. unfold get_shape. by intros ->. Qed.

Lemma iter_axis_ok l h ts :
  h !! l = Some (Arr1 ts) → iter_axis l h = (Ok ts, h).
Proof. unfold iter_axis. by intros ->. Qed.

Lemma iter_ranks_ok l h rs :
  h !! l = Some (IntArr rs) → iter_ranks l h = (Ok rs, h).
Proof. unfold iter_ranks. by intros ->. Qed.

Lemma getitem2_ok a indt indr h av v :
  h !! a = Some (Arr2 av) → entry av indt indr = Some v →
  getitem2 a indt indr h = (Ok v, h).
Proof. unfold getitem2. by intros -> ->. Qed.

Lemma mask_eq_ok rf indt rank h g gt :
  h !! rf = Some (LabelArr3 g) → g !! indt = Some gt →
  mask_eq rf indt rank h = (Ok (eq_mask gt rank), h).
Proof. unfold mask_eq. by intros -> ->. Qed.

Lemma setitem_masked_ok l indt mask v h f ft :
  h !! l = Some (Arr3 f) → f !! indt = Some ft →
  shape2 mask = shape2 ft →
  setitem_masked l indt mask v h
  = (Ok tt, <[l := Arr3 (<[indt := assign_mask mask v ft]> f)]> h).
Proof.
  unfold setitem_masked. intros -> -> Hsh. by rewrite decide_True.
Qed.

Lemma inner_run env a l indt g av row gt rs :
  l ≠ a → l ≠ rankfield env →
  av !! indt = Some row → g !! indt = Some gt →
  ∀ indr h f ft,
    h !! a = Some (Arr2 av) →
    h !! rankfield env = Some (LabelArr3 g) →
    h !! l = Some (Arr3 f) →
    f !! indt = Some ft → shape2 gt = shape2 ft →
    indr + length rs ≤ length row →
    for_enum indr rs (inner_body env a l indt) h
    = (Ok tt, <[l := Arr3 (<[indt := paint_ranks zero row indr rs gt ft]> f)]> h).
Proof.
  intros Hla Hlrf Hrow Hgt.
  induction rs as [|rank rs IH]; intros indr h f ft Ha Hrf Hl Hft Hsh Hlen.
  - simpl. unfold ret. rewrite list_insert_id by done.
    by rewrite insert_id.
  - simpl in *.
    destruct (lookup_lt_is_Some_2 row indr) as [v Hv]; [lia|].
    assert (inner_body env a l indt indr rank h
            = (Ok tt, <[l := Arr3 (<[indt := assign_mask (eq_mask gt rank) v ft]> f)]> h))
      as Hbody.
    { unfold inner_body.
      erewrite bind_ok by (eapply getitem2_ok; [done|]; unfold entry; by rewrite Hrow).
      erewrite bind_ok by (by eapply mask_eq_ok).
      apply setitem_masked_ok; [done..|]. by rewrite shape2_eq_mask. }
    rewrite (bind_ok _ _ _ _ _ Hbody).
    rewrite (IH (S indr) _ (<[indt := assign_mask (eq_mask gt rank) v ft]> f)
               (assign_mask (eq_mask gt rank) v ft)).
    + rewrite insert_insert_eq, list_insert_insert_eq, Hv. done.
    + by rewrite lookup_insert_ne.
    + by rewrite lookup_insert_ne.
    + by rewrite lookup_insert_eq.
    + apply list_lookup_insert_eq. by eapply lookup_lt_Some.
    + rewrite shape2_assign_mask; [done|]. by rewrite shape2_eq_mask.
    + lia.
Qed.

Lemma shape3_insert g f t gt ft :
  shape3 g = shape3 f → g !! t = Some gt → shape2 gt = shape2 ft →
  shape3 g = shape3 (<[t := ft]> f).
Proof.
  unfold shape3. intros Hsh Hg Hft.
  rewrite list_fmap_insert, <- Hsh, <- Hft.
  symmetry. apply list_insert_id. by rewrite list_lookup_fmap, Hg.
Qed.

Lemma outer_run env a l g av rs :
  l ≠ a → l ≠ rankfield env → l ≠ ranks env →
  ∀ (ts : list V) indt h f,
    h !! a = Some (Arr2 av) →
    h !! rankfield env = Some (LabelArr3 g) →
    h !! ranks env = Some (IntArr rs) →
    h !! l = Some (Arr3 f) →
    shape3 g = shape3 f →
    indt + length ts ≤ length g →
    (∀ t row, indt ≤ t → av !! t = Some row → length rs ≤ length row) →
    indt + length ts ≤ length av →
    for_enum indt ts (outer_body env a l) h
    = (Ok tt, <[l := Arr3 (paint_times zero av rs g indt (length ts) f)]> h).
Proof.
  intros Hla Hlrf Hlrk.
  induction ts as [|time ts IH];
    intros indt h f Ha Hrf Hrk Hl Hsh Hg Hcols Hrows.
  - simpl. unfold ret. by rewrite insert_id.
  - simpl in *.
    destruct (lookup_lt_is_Some_2 g indt) as [gt Hgt]; [lia|].
    destruct (lookup_lt_is_Some_2 av indt) as [row Hrow]; [lia|].
    destruct (shape3_lookup g f indt gt Hsh Hgt) as (ft & Hft & Hsh2).
    assert (outer_body env a l indt time h
            = (Ok tt, <[l := Arr3 (<[indt := paint_ranks zero row 0 rs gt ft]> f)]> h))
      as Hbody.
    { unfold outer_body.
      erewrite bind_ok by (by eapply iter_ranks_ok).
      eapply inner_run; [done..|]. simpl. by eapply Hcols. }
    rewrite (bind_ok _ _ _ _ _ Hbody).
    rewrite (IH (S indt) _ (<[indt := paint_ranks zero row 0 rs gt ft]> f)).
    + rewrite insert_insert_eq, Hrow, Hgt, Hft. done.
    + by rewrite lookup_insert_ne.
    + by rewrite lookup_insert_ne.
    + by rewrite lookup_insert_ne.
    + by rewrite lookup_insert_eq.
    + eapply shape3_insert; [done..|].
      by rewrite shape2_paint_ranks.
    + lia.
    + intros t row' Ht. apply Hcols. lia.
    + lia.
Qed.

(** *** What the outer loop leaves in the field *)

Lemma shape3_paint_times av rs g :
  ∀ n indt f, shape3 g = shape3 f →
              shape3 (paint_times zero av rs g indt n f) = shape3 f.
Proof.
  induction n as [|n IH]; intros indt f Hsh; simpl; [done|].
  destruct (g !! indt) as [gt|] eqn:Hgt.
  - destruct (shape3_lookup g f indt gt Hsh Hgt) as (ft & Hft & Hsh2).
    rewrite Hft. simpl.
    assert (shape3 g
            = shape3 (<[indt := paint_ranks zero (default [] (av !! indt))
                                  0 rs gt ft]> f)) as Hsh'.
    { eapply shape3_insert; [done..|]. by rewrite shape2_paint_ranks. }
    rewrite IH by done. by rewrite <- Hsh'.
  - assert (length f ≤ indt) as Hge.
    { apply lookup_ge_None_1 in Hgt.
      assert (length (shape3 g) = length (shape3 f)) as Hl by by rewrite Hsh.
      unfold shape3 in Hl. rewrite !length_fmap in Hl. lia. }
    rewrite list_insert_ge by done. by apply IH.
Qed.

Lemma lookup_paint_times av rs g t :
  ∀ n indt f,
    indt ≤ t < indt + n → t < length f →
    paint_times zero av rs g indt n f !! t
    = Some (paint_ranks zero (default [] (av !! t)) 0 rs
              (default [] (g !! t)) (default [] (f !! t))).
Proof.
  assert (∀ n indt f, t < indt →
                      paint_times zero av rs g indt n f !! t = f !! t) as Hout.
  { induction n as [|n IH]; intros indt f Hlt; simpl; [done|].
    rewrite IH by lia. apply list_lookup_insert_ne. lia. }
  induction n as [|n IH]; intros indt f Ht Hlen; simpl; [lia|].
  destruct (decide (t = indt)) as [->|Hne].
  - rewrite Hout by lia. by apply list_lookup_insert_eq.
  - rewrite IH.
    + by rewrite list_lookup_insert_ne by done.
    + lia.
    + by rewrite length_insert.
Qed.
End PainterRun.

(** ** [get_field] on valid input *)

Section GetField.
Context {V : Type} (zero : V).
Implicit Types (h : heap V) (g : list (list (list Z))) (gt : list (list Z)).
Implicit Types (av : list (list V)) (row ts : list V) (rs : list nat).

Lemma fresh_not_held h (l : loc) (x : ndarray V) :
  h !! l = Some x → fresh (dom h) ≠ l.
Proof.
  intros Hl Heq. apply (is_fresh (dom h)). rewrite Heq.
  apply elem_of_dom. eauto.
Qed.

(** On valid input the call returns a new object holding [paint]. *)
Lemma get_field_run env a h g ts rs av :
  holds h env a g ts rs av → valid_input g ts rs av →
  get_field zero env a h
  = (Ok (fresh (dom h)),
     <[fresh (dom h) := Arr3 (paint zero av rs g (length ts))]> h).
Proof.
  intros [Hrf Htm Hrk Ha] [Hsnap Hrows Hcols].
  set (l := fresh (dom h)).
  assert (l ≠ rankfield env) as Hlrf by by eapply fresh_not_held.
  assert (l ≠ times env) as Hltm by by eapply fresh_not_held.
  assert (l ≠ ranks env) as Hlrk by by eapply fresh_not_held.
  assert (l ≠ a) as Hla by by eapply fresh_not_held.
  rewrite get_field_unfold.
  erewrite bind_ok by (by eapply get_shape_ok).
  erewrite bind_ok by (unfold alloc; fold l; reflexivity).
  erewrite bind_ok by (eapply iter_axis_ok; by rewrite lookup_insert_ne).
  erewrite bind_ok.
  2:{ eapply (outer_run zero env a l g av rs Hla Hlrf Hlrk ts 0).
      - by rewrite lookup_insert_ne.
      - by rewrite lookup_insert_ne.
      - by rewrite lookup_insert_ne.
      - by rewrite lookup_insert_eq.
      - by rewrite shape3_zeros3.
      - lia.
      - intros t row _ Hrow.
        rewrite Forall_forall in Hcols. rewrite (Hcols row); [done|].
        apply list_elem_of_lookup. eauto.
      - lia. }
  unfold ret. by rewrite insert_insert_eq.
Qed.

Lemma shape3_paint av rs g n : shape3 (paint zero av rs g n) = shape3 g.
Proof.
  unfold paint. rewrite shape3_paint_times; by rewrite shape3_zeros3.
Qed.

Lemma length_shape3 {A B} (ga : list (list (list A)))
  (fb : list (list (list B))) :
  shape3 ga = shape3 fb → length ga = length fb.
Proof.
  unfold shape3. intros Hsh.
  rewrite <- (length_fmap shape2 ga), <- (length_fmap shape2 fb).
  by rewrite Hsh.
Qed.

(** Every pixel of a painted snapshot holds [pixel_value] of its label. *)
Lemma pixel_paint g ts rs av t y x label :
  valid_input g ts rs av → pixel g t y x = Some label →
  ∃ row, av !! t = Some row ∧ length row = length rs ∧
         pixel (paint zero av rs g (length ts)) t y x
         = Some (pixel_value zero row 0 rs label zero).
Proof.
  intros [Hsnap Hrows Hcols] Hpix. unfold pixel in Hpix.
  destruct (g !! t) as [gt|] eqn:Hgt; [|done].
  assert (t < length ts) as Ht.
  { rewrite <- Hsnap. by eapply lookup_lt_Some. }
  destruct (lookup_lt_is_Some_2 av t) as [row Hrow]; [lia|].
  exists row. split; [done|]. split.
  { rewrite Forall_forall in Hcols. apply Hcols.
    apply list_elem_of_lookup. eauto. }
  unfold pixel, paint.
  rewrite lookup_paint_times.
  2:{ lia. }
  2:{ rewrite <- (length_shape3 g); [lia|]. by rewrite shape3_zeros3. }
  rewrite Hrow, Hgt. simpl.
  apply entry_paint_ranks; [done|].
  unfold zeros3, shape3. rewrite !list_lookup_fmap, Hgt. simpl.
  unfold entry in Hpix.
  destruct (gt !! y) as [grow|] eqn:Hy; [|done].
  eapply entry_zeros2.
  - unfold shape2. by rewrite list_lookup_fmap, Hy.
  - by eapply lookup_lt_Some.
Qed.

(** A pixel labelled with a loaded rank holds the scalar found at the
    last position of that rank in the rank list. *)
Lemma get_field_last_index env a h g ts rs av t y x r i :
  holds h env a g ts rs av → valid_input g ts rs av →
  pixel g t y x = Some (Z.of_nat r) → last_index rs r i →
  ∃ l h' out v,
    get_field zero env a h = (Ok l, h') ∧ h' !! l = Some (Arr3 out) ∧
    entry av t i = Some v ∧ pixel out t y x = Some v.
Proof.
  intros Hh Hv Hpix Hlast.
  destruct (pixel_paint g ts rs av t y x _ Hv Hpix)
    as (row & Hrow & Hlen & Hout).
  destruct (lookup_lt_is_Some_2 row i) as [v Hi].
  { rewrite Hlen. destruct Hlast as [Hi _]. by eapply lookup_lt_Some. }
  eexists _, _, _, v. split; [by apply get_field_run|].
  split; [by rewrite lookup_insert_eq|].
  split; [unfold entry; by rewrite Hrow|].
  rewrite Hout. f_equal.
  rewrite (pixel_value_last zero row rs r i 0 zero Hlast). simpl.
  by rewrite Hi.
Qed.

(** C2.  On valid input the call raises nothing, and a pixel whose label
    is no rank of the loaded rank list (the label of a place no cell
    occupies, or a rank that was not loaded) holds zero in the painted
    field, at every timestep. *)
Theorem get_field_unknown_label_zero env a h g ts rs av t y x label :
  holds h env a g ts rs av → valid_input g ts rs av →
  pixel g t y x = Some label → (∀ r, r ∈ rs → label ≠ Z.of_nat r) →
  ∃ l h' out,
    get_field zero env a h = (Ok l, h') ∧ h' !! l = Some (Arr3 out) ∧
    pixel out t y x = Some zero.
Proof.
  intros Hh Hv Hpix Hno.
  destruct (pixel_paint g ts rs av t y x _ Hv Hpix)
    as (row & Hrow & Hlen & Hout).
  eexists _, _, _. split; [by apply get_field_run|].
  split; [by rewrite lookup_insert_eq|].
  rewrite Hout. f_equal. by apply pixel_value_absent.
Qed.

(** C8.  On valid input the call returns a field sequence with one field
    per timestep, each of the shape of the rank-field snapshot of its
    timestep. *)
Theorem get_field_shape env a h g ts rs av :
  holds h env a g ts rs av → valid_input g ts rs av →
  ∃ l h' out,
    get_field zero env a h = (Ok l, h') ∧ h' !! l = Some (Arr3 out) ∧
    length out = length ts ∧
    ∀ t gt, g !! t = Some gt →
            ∃ ft, out !! t = Some ft ∧ shape2 ft = shape2 gt.
Proof.
  intros Hh Hv.
  eexists _, _, _. split; [by apply get_field_run|].
  split; [by rewrite lookup_insert_eq|].
  pose proof (shape3_paint av rs g (length ts)) as Hsh.
  split.
  - rewrite (length_shape3 _ g Hsh). by destruct Hv.
  - intros t gt Hgt.
    destruct (shape3_lookup g (paint zero av rs g (length ts)) t gt)
      as (ft & Hft & Hsh2); [done|done|]. eauto.
Qed.
End GetField.

(** ** Effects of [get_field] on the store *)

Section Frame.
Context {V : Type} (zero : V).
Implicit Types (h : heap V).

Lemma frames_ret l {A} (x : A) : frames (V := V) l (ret x).
Proof. done. Qed.

Lemma frames_bind l {A B} (m : M V A) (k : A → M V B) :
  frames l m → (∀ x, frames l (k x)) → frames l (bind m k).
Proof.
  intros Hm Hk h. unfold bind. specialize (Hm h).
  destruct (m h) as [[x|e] h1]; simpl in *; [|done].
  by rewrite Hk.
Qed.

Lemma frames_for_enum l {A} (body : nat → A → M V unit) (xs : list A) :
  (∀ i x, frames l (body i x)) → ∀ i, frames l (for_enum i xs body).
Proof.
  intros Hbody. induction xs as [|x xs IH]; intros i; simpl.
  - apply frames_ret.
  - apply frames_bind; [apply Hbody|]. intros _. apply IH.
Qed.

Lemma frames_iter_ranks l rk : frames (V := V) l (iter_ranks rk).
Proof. intros h. unfold iter_ranks. by repeat case_match. Qed.

Lemma frames_getitem2 l a indt indr : frames (V := V) l (getitem2 a indt indr).
Proof. intros h. unfold getitem2. by repeat case_match. Qed.

Lemma frames_mask_eq l rf indt rank : frames (V := V) l (mask_eq rf indt rank).
Proof. intros h. unfold mask_eq. by repeat case_match. Qed.

Lemma frames_setitem_masked l indt mask (v : V) :
  frames l (setitem_masked l indt mask v).
Proof.
  intros h. unfold setitem_masked.
  repeat case_match; simpl; try done. apply delete_insert_eq.
Qed.

Lemma frames_outer_body env a l indt time :
  frames (V := V) l (outer_body env a l indt time).
Proof.
  apply frames_bind; [apply frames_iter_ranks|]. intros rs.
  apply frames_for_enum. intros indr rank.
  apply frames_bind; [apply frames_getitem2|]. intros v.
  apply frames_bind; [apply frames_mask_eq|]. intros mask.
  apply frames_setitem_masked.
Qed.

(** Whatever its input, a call changes no object of the store it
    started in: the store it ends in is that store, with at most one
    object added at the next unused location. *)
Lemma get_field_delete env a h :
  delete (fresh (dom h)) (snd (get_field zero env a h)) = h.
Proof.
  set (l := fresh (dom h)).
  assert (delete l h = h) as Hfresh.
  { apply delete_id. apply not_elem_of_dom. apply is_fresh. }
  rewrite get_field_unfold. unfold bind at 1.
  destruct (get_shape (rankfield env) h) as [[sh|e] h1] eqn:Hsh.
  - assert (h1 = h) as ->.
    { unfold get_shape in Hsh. by repeat case_match; simplify_eq. }
    unfold bind at 1. unfold alloc. fold l.
    assert (frames (V := V) l (let* ts := iter_axis (times env) in
                      let* _ := for_enum 0 ts (outer_body env a l) in
                      ret l)) as Hrest.
    { apply frames_bind.
      { intros h2. unfold iter_axis. by repeat case_match. }
      intros ts. apply frames_bind; [|intros _; apply frames_ret].
      apply frames_for_enum. intros indt time. apply frames_outer_body. }
    rewrite Hrest. by rewrite delete_insert_eq.
  - assert (h1 = h) as ->.
    { unfold get_shape in Hsh. by repeat case_match; simplify_eq. }
    done.
Qed.

Lemma get_field_old_objects env a h l :
  l ∈ dom h → snd (get_field zero env a h) !! l = h !! l.
Proof.
  intros Hl.
  assert (l ≠ fresh (dom h)) as Hne.
  { intros ->. by apply (is_fresh (dom h)). }
  rewrite <- (get_field_delete env a h) at 2.
  by rewrite lookup_delete_ne.
Qed.

Lemma get_field_returns_fresh env a h l :
  fst (get_field zero env a h) = Ok l → l = fresh (dom h).
Proof.
  rewrite get_field_unfold. unfold bind at 1.
  destruct (get_shape (rankfield env) h) as [[sh|e] h1] eqn:Hsh; [|done].
  assert (h1 = h) as ->.
  { unfold get_shape in Hsh. by repeat case_match; simplify_eq. }
  unfold bind at 1. unfold alloc.
  unfold bind. repeat case_match; simpl; unfold ret in *; by intros; simplify_eq.
Qed.

(** C10.  Whatever the input, valid or not, and whether the call returns
    or raises, the four inputs of [get_field] (the rank field, the
    timestep axis, the rank list and the scalar array [a]) and every
    other object of the store hold after the call what they held before
    it, and a field that is returned is an object the store did not
    hold before. *)
Theorem get_field_leaves_inputs env a h g ts rs av :
  holds h env a g ts rs av →
  holds (snd (get_field zero env a h)) env a g ts rs av ∧
  (∀ l, l ∈ dom h → snd (get_field zero env a h) !! l = h !! l) ∧
  (∀ l, fst (get_field zero env a h) = Ok l → l ∉ dom h).
Proof.
  intros [Hrf Htm Hrk Ha]. split; [|split].
  - split; (rewrite get_field_old_objects; [done|]);
      apply elem_of_dom; eauto.
  - apply get_field_old_objects.
  - intros l Hl. apply get_field_returns_fresh in Hl as ->. apply is_fresh.
Qed.
End Frame.

(** ** [get_field] as a function of its inputs *)

Section Simulation.
Context {V : Type} (R : heap V → heap V → Prop).

Lemma simulates_ret {A} (x : A) : simulates R (ret x) (ret x).
Proof. by intros h h' HR. Qed.

Lemma simulates_bind {A B} (m m' : M V A) (k k' : A → M V B) :
  simulates R m m' → (∀ x, simulates R (k x) (k' x)) →
  simulates R (bind m k) (bind m' k').
Proof.
  intros Hm Hk h h' HR. unfold bind.
  destruct (Hm h h' HR) as [Hfst Hsnd].
  destruct (m h) as [[x|e] h1], (m' h') as [[x'|e'] h1'];
    simplify_eq/=; [|done].
  by apply Hk.
Qed.

Lemma simulates_for_enum {A} (body body' : nat → A → M V unit)
  (xs : list A) :
  (∀ i x, simulates R (body i x) (body' i x)) →
  ∀ i, simulates R (for_enum i xs body) (for_enum i xs body').
Proof.
  intros Hbody. induction xs as [|x xs IH]; intros i; simpl.
  - apply simulates_ret.
  - apply simulates_bind; [apply Hbody|]. intros _. apply IH.
Qed.
End Simulation.

Section Determinism.
Context {V : Type} (zero : V).
Context (env env' : closure) (a a' l l' : loc).
Context (g : list (list (list Z))) (ts : list V) (rs : list nat)
  (av : list (list V)).
Hypothesis Hl : l ≠ rankfield env ∧ l ≠ times env ∧ l ≠ ranks env ∧ l ≠ a.
Hypothesis Hl' :
  l' ≠ rankfield env' ∧ l' ≠ times env' ∧ l' ≠ ranks env' ∧ l' ≠ a'.

Local Abbreviation rel := (related env env' a a' l l' g ts rs av).

Lemma simulates_iter_ranks :
  simulates rel (iter_ranks (ranks env)) (iter_ranks (ranks env')).
Proof.
  intros h h' HR. unfold iter_ranks.
  pose proof HR as [Hh Hh' Hf].
  by rewrite (holds_ranks _ _ _ _ _ _ _ Hh), (holds_ranks _ _ _ _ _ _ _ Hh').
Qed.

Lemma simulates_getitem2 indt indr :
  simulates rel (getitem2 a indt indr) (getitem2 a' indt indr).
Proof.
  intros h h' HR. unfold getitem2.
  pose proof HR as [Hh Hh' Hf].
  rewrite (holds_a _ _ _ _ _ _ _ Hh), (holds_a _ _ _ _ _ _ _ Hh').
  by destruct (entry av indt indr).
Qed.

Lemma simulates_mask_eq indt rank :
  simulates rel (mask_eq (rankfield env) indt rank)
    (mask_eq (rankfield env') indt rank).
Proof.
  intros h h' HR. unfold mask_eq.
  pose proof HR as [Hh Hh' Hf].
  rewrite (holds_rankfield _ _ _ _ _ _ _ Hh),
    (holds_rankfield _ _ _ _ _ _ _ Hh').
  by destruct (g !! indt).
Qed.

Lemma holds_insert h (env0 : closure) (a0 l0 : loc) (x : ndarray V) :
  l0 ≠ rankfield env0 ∧ l0 ≠ times env0 ∧ l0 ≠ ranks env0 ∧ l0 ≠ a0 →
  holds h env0 a0 g ts rs av → holds (<[l0 := x]> h) env0 a0 g ts rs av.
Proof.
  intros (? & ? & ? & ?) [? ? ? ?].
  split; by rewrite lookup_insert_ne.
Qed.

Lemma simulates_setitem_masked indt mask (v : V) :
  simulates rel (setitem_masked l indt mask v)
    (setitem_masked l' indt mask v).
Proof.
  intros h h' HR. unfold setitem_masked.
  pose proof HR as [Hh Hh' Hf]. rewrite <- Hf.
  destruct (h !! l) as [[?|?|?|?|f]|] eqn:Hhl; try done.
  destruct (f !! indt) as [ft|]; [|done].
  case_decide; [|done]. simpl. split; [done|].
  split; [by apply holds_insert..|].
  by rewrite !lookup_insert_eq.
Qed.

Lemma simulates_outer_body indt time :
  simulates rel (outer_body env a l indt time)
    (outer_body env' a' l' indt time).
Proof.
  apply simulates_bind; [apply simulates_iter_ranks|]. intros rs0.
  apply simulates_for_enum. intros indr rank.
  apply simulates_bind; [apply simulates_getitem2|]. intros v.
  apply simulates_bind; [apply simulates_mask_eq|]. intros mask.
  apply simulates_setitem_masked.
Qed.
End Determinism.

Section Purity.
Context {V : Type} (zero : V).

(** C9.  [get_field] is a function of its inputs: in any two stores
    whose rank field, timestep axis, rank list and scalar array hold
    the same values, wherever these objects lie and whatever else the
    stores hold, the two calls raise the same exception or return
    fields holding the same values.  In particular a second call, made
    in the store the first call left, returns what the first returned. *)
Theorem get_field_function_of_inputs env a h env' a' h' g ts rs
  (av : list (list V)) :
  holds h env a g ts rs av → holds h' env' a' g ts rs av →
  observe (get_field zero env a h) = observe (get_field zero env' a' h').
Proof.
  intros Hh Hh'.
  set (l := fresh (dom h)). set (l' := fresh (dom h')).
  assert (l ≠ rankfield env ∧ l ≠ times env ∧ l ≠ ranks env ∧ l ≠ a) as Hl.
  { destruct Hh. repeat split; by eapply fresh_not_held. }
  assert (l' ≠ rankfield env' ∧ l' ≠ times env' ∧ l' ≠ ranks env' ∧ l' ≠ a')
    as Hl'.
  { destruct Hh'. repeat split; by eapply fresh_not_held. }
  rewrite !get_field_unfold.
  erewrite (bind_ok _ _ h) by (eapply get_shape_ok; by destruct Hh).
  erewrite (bind_ok _ _ h') by (eapply get_shape_ok; by destruct Hh').
  erewrite (bind_ok (alloc _) _ h) by (unfold alloc; fold l; reflexivity).
  erewrite (bind_ok (alloc _) _ h') by (unfold alloc; fold l'; reflexivity).
  set (x := Arr3 (zeros3 zero (shape3 g))).
  assert (related env env' a a' l l' g ts rs av (<[l := x]> h) (<[l' := x]> h'))
    as HR.
  { split; [by apply holds_insert..|]. by rewrite !lookup_insert_eq. }
  erewrite (bind_ok _ _ (<[l := x]> h))
    by (eapply iter_axis_ok; by destruct HR as [[] _ _]).
  erewrite (bind_ok _ _ (<[l' := x]> h'))
    by (eapply iter_axis_ok; by destruct HR as [_ [] _]).
  destruct (simulates_for_enum _ _ _ ts
              (simulates_outer_body env env' a a' l l' g ts rs av Hl Hl')
              0 _ _ HR) as [Hfst Hsnd].
  unfold bind.
  destruct (for_enum 0 ts (outer_body env a l) _) as [[[]|e] h1],
      (for_enum 0 ts (outer_body env' a' l') _) as [[[]|e'] h1'];
    simplify_eq/=; [|done].
  f_equal. by destruct Hsnd.
Qed.
End Purity.

(** ** The property resolver *)

Lemma entry_ufunc1 (f : float → float) (a : list (list float)) (t i : nat) :
  entry (ufunc1 f a) t i = f <$> entry a t i.
Proof.
  unfold entry, ufunc1. rewrite list_lookup_fmap.
  destruct (a !! t) as [row|]; simpl; [|done]. by rewrite list_lookup_fmap.
Qed.

Lemma entry_ufunc2 (f : float → float → float) (a b : list (list float)) (t i : nat) :
  entry (ufunc2 f a b) t i
  = match entry a t i, entry b t i with
    | Some x, Some y => Some (f x y)
    | _, _ => None
    end.
Proof.
  unfold entry, ufunc2. rewrite lookup_zip_with.
  destruct (a !! t) as [ra|], (b !! t) as [rb|]; simpl; try done.
  - rewrite lookup_zip_with.
    by destruct (ra !! i), (rb !! i).
  - by destruct (ra !! i).
Qed.

Lemma matrix_zeros2 {A} (z : A) (N n : nat) :
  matrix N n (zeros2 z (replicate N n)).
Proof.
  unfold matrix, zeros2. split.
  - by rewrite length_fmap, length_replicate.
  - apply Forall_fmap, Forall_forall. intros w Hw.
    apply elem_of_replicate in Hw as [-> _]. apply length_replicate.
Qed.

Lemma matrix_ufunc1 (f : float → float) (N n : nat) (a : list (list float)) :
  matrix N n a → matrix N n (ufunc1 f a).
Proof.
  unfold matrix, ufunc1. intros [Hlen Hrows]. split.
  - by rewrite length_fmap.
  - apply Forall_fmap. eapply Forall_impl; [done|].
    intros row Hrow. simpl. by rewrite length_fmap.
Qed.

Lemma matrix_ufunc2 (f : float → float → float) (N n : nat) (a b : list (list float)) :
  matrix N n a → matrix N n b → matrix N n (ufunc2 f a b).
Proof.
  unfold matrix, ufunc2. intros [Hla Hra] [Hlb Hrb]. split.
  - rewrite length_zip_with. lia.
  - apply Forall_forall. intros row Hrow.
    apply list_elem_of_lookup in Hrow as [t Ht].
    rewrite lookup_zip_with in Ht.
    destruct (a !! t) as [ra|] eqn:Ha; [|done].
    destruct (b !! t) as [rb|] eqn:Hb; simplify_eq/=.
    rewrite length_zip_with.
    rewrite Forall_forall in Hra, Hrb.
    rewrite (Hra ra), (Hrb rb); [lia|..]; apply list_elem_of_lookup; eauto.
  Qed.

(** *** [arr[:, rank] = series] *)

Lemma setcol_inv n arr rank series arr' :
  setcol n arr rank series = Ok arr' →
  rank < n ∧
  (length series = length arr
   ∧ arr' = zip_with (λ row x, <[rank := x]> row) arr series
   ∨ ∃ x, series = [x] ∧ arr' = (λ row, <[rank := x]> row) <$> arr).
Proof.
  unfold setcol. intros Hset.
  case_decide; [|done]. split; [done|].
  case_decide; simplify_eq; [by left|].
  destruct series as [|x [|]]; simplify_eq. right. eauto.
Qed.

Lemma setcol_matrix N n arr rank series arr' :
  setcol n arr rank series = Ok arr' → matrix N n arr → matrix N n arr'.
Proof.
  intros Hset [Hlen Hrows].
  apply setcol_inv in Hset as [_ [[Hs ->]|[x [-> ->]]]]; split.
  - rewrite length_zip_with. lia.
  - apply Forall_forall. intros row Hrow.
    apply list_elem_of_lookup in Hrow as [t Ht].
    rewrite lookup_zip_with in Ht.
    destruct (arr !! t) as [r0|] eqn:Ha; [|done].
    destruct (series !! t); simplify_eq/=.
    rewrite length_insert. rewrite Forall_forall in Hrows. apply Hrows.
    apply list_elem_of_lookup. eauto.
  - by rewrite length_fmap.
  - apply Forall_fmap. eapply Forall_impl; [done|].
    intros row Hrow. simpl. by rewrite length_insert.
Qed.

Lemma setcol_other n arr rank series arr' t i :
  setcol n arr rank series = Ok arr' → i ≠ rank →
  entry arr' t i = entry arr t i.
Proof.
  intros Hset Hne. unfold entry.
  apply setcol_inv in Hset as [_ [[Hs ->]|[x [-> ->]]]].
  - rewrite lookup_zip_with.
    destruct (arr !! t) as [row|] eqn:Ha; [|done].
    destruct (lookup_lt_is_Some_2 series t) as [x Hx].
    { rewrite Hs. by eapply lookup_lt_Some. }
    rewrite Hx. simpl. by rewrite list_lookup_insert_ne.
  - rewrite list_lookup_fmap.
    destruct (arr !! t) as [row|]; [|done]. simpl.
    by rewrite list_lookup_insert_ne.
Qed.

Lemma setcol_column N n arr rank series arr' t :
  setcol n arr rank series = Ok arr' → matrix N n arr →
  length series = N → t < N →
  entry arr' t rank = series !! t.
Proof.
  intros Hset [Hlen Hrows] Hs Ht. unfold entry.
  destruct (lookup_lt_is_Some_2 arr t) as [row Hrow]; [lia|].
  assert (length row = n) as Hn.
  { rewrite Forall_forall in Hrows. apply Hrows.
    apply list_elem_of_lookup. eauto. }
  destruct (lookup_lt_is_Some_2 series t) as [x Hx]; [lia|].
  apply setcol_inv in Hset as [Hlt [[_ ->]|[y [-> ->]]]].
  - rewrite lookup_zip_with, Hrow, Hx. simpl.
    apply list_lookup_insert_eq. lia.
  - rewrite list_lookup_fmap, Hrow.
    destruct t; simplify_eq/=. apply list_lookup_insert_eq. lia.
Qed.

Lemma setcol_ok N n arr rank series :
  matrix N n arr → rank < n → length series = N →
  ∃ arr', setcol n arr rank series = Ok arr'.
Proof.
  intros [Hlen _] Hlt Hs. unfold setcol.
  rewrite decide_True by done. rewrite decide_True by lia. eauto.
Qed.

(** *** The column-filling loop *)

Lemma rbind_ok {A B} (m : result A) (k : A → result B) (y : B) :
  rbind m k = Ok y → ∃ x, m = Ok x ∧ k x = Ok y.
Proof. destruct m as [x|e]; simpl; [eauto|done]. Qed.

Lemma getitem_ok positions rank tb :
  getitem positions rank = Ok tb → positions !! rank = Some tb.
Proof. unfold getitem. by destruct (positions !! rank); intros; simplify_eq. Qed.

Lemma fill_columns_split positions n k0 k1 rs :
  ∀ c0 c1 c0' c1',
    fill_columns positions n k0 k1 rs (c0, c1) = Ok (c0', c1') →
    fill_column positions n k0 rs c0 = Ok c0' ∧
    fill_column positions n k1 rs c1 = Ok c1'.
Proof.
  induction rs as [|rank rs IH]; intros c0 c1 c0' c1' Hfill; simpl in *.
  - by simplify_eq.
  - apply rbind_ok in Hfill as (tb0 & Htb0 & Hfill).
    apply rbind_ok in Hfill as (x0 & Hx0 & Hfill).
    apply rbind_ok in Hfill as (tb1 & Htb1 & Hfill).
    apply rbind_ok in Hfill as (x1 & Hx1 & Hfill).
    rewrite Htb0 in Htb1. simplify_eq.
    rewrite Htb0. simpl. rewrite Hx0, Hx1. simpl.
    by apply IH.
Qed.

Section FillColumn.
Context (positions : list table) (N n : nat) (k : table → list float).

Lemma fill_column_matrix rs :
  ∀ c c', fill_column positions n k rs c = Ok c' →
          matrix N n c → matrix N n c'.
Proof.
  induction rs as [|rank rs IH]; intros c c' Hfill Hc; simpl in *.
  - by simplify_eq.
  - apply rbind_ok in Hfill as (tb & Htb & Hfill).
    apply rbind_ok in Hfill as (c1 & Hc1 & Hfill).
    eapply IH; [done|]. by eapply setcol_matrix.
Qed.

Lemma fill_column_bounds rs :
  ∀ c c', fill_column positions n k rs c = Ok c' →
          Forall (λ r, r < n ∧ is_Some (positions !! r)) rs.
Proof.
  induction rs as [|rank rs IH]; intros c c' Hfill; simpl in *.
  - constructor.
  - apply rbind_ok in Hfill as (tb & Htb & Hfill).
    apply rbind_ok in Hfill as (c1 & Hc1 & Hfill).
    constructor; [|by eapply IH].
    apply getitem_ok in Htb. apply setcol_inv in Hc1 as [Hlt _]. eauto.
Qed.

Lemma fill_column_other rs t i :
  i ∉ rs →
  ∀ c c', fill_column positions n k rs c = Ok c' →
          entry c' t i = entry c t i.
Proof.
  induction rs as [|rank rs IH]; intros Hi c c' Hfill; simpl in *.
  - by simplify_eq.
  - apply rbind_ok in Hfill as (tb & Htb & Hfill).
    apply rbind_ok in Hfill as (c1 & Hc1 & Hfill).
    apply not_elem_of_cons in Hi as [Hne Hi].
    rewrite (IH Hi c1 c') by done.
    by eapply setcol_other.
Qed.

(** After the loop, the column of a loaded rank [r] holds the series of
    the table at position [r] of the table list. *)
Lemma fill_column_entry rs r tb t :
  r ∈ rs → positions !! r = Some tb → length (k tb) = N → t < N →
  ∀ c c', fill_column positions n k rs c = Ok c' → matrix N n c →
          entry c' t r = k tb !! t.
Proof.
  intros Hr Htb Hlen Ht.
  induction rs as [|rank rs IH]; intros c c' Hfill Hc; simpl in *.
  - by apply elem_of_nil in Hr.
  - apply rbind_ok in Hfill as (tb0 & Htb0 & Hfill).
    apply rbind_ok in Hfill as (c1 & Hc1 & Hfill).
    apply getitem_ok in Htb0.
    destruct (decide (r ∈ rs)) as [Hin|Hout].
    + eapply IH; [done|done|by eapply setcol_matrix].
    + apply elem_of_cons in Hr as [-> | Hr]; [|done].
      simplify_eq.
      rewrite (fill_column_other rs t rank Hout c1 c') by done.
      by eapply setcol_column.
Qed.
End FillColumn.

(** With one table per rank, each with a value per timestep, the loop
    returns when every rank is below the column count, and faults on the
    first rank that is not. *)
Lemma fill_columns_total positions N n k0 k1 rs :
  length positions = n →
  (∀ tb, tb ∈ positions → length (k0 tb) = N ∧ length (k1 tb) = N) →
  ∀ c0 c1, matrix N n c0 → matrix N n c1 →
    if decide (Forall (λ r, r < n) rs)
    then ∃ c', fill_columns positions n k0 k1 rs (c0, c1) = Ok c'
    else fill_columns positions n k0 k1 rs (c0, c1) = Raise IndexError.
Proof.
  intros Hpos Hlen.
  induction rs as [|rank rs IH]; intros c0 c1 Hc0 Hc1.
  - destruct (decide _) as [_|Hnot]; [by eexists|].
    exfalso. apply Hnot. constructor.
  - destruct (decide (rank < n)) as [Hlt|Hge].
    + destruct (lookup_lt_is_Some_2 positions rank) as [tb Htb]; [lia|].
      assert (tb ∈ positions) as Hin by (apply list_elem_of_lookup; eauto).
      destruct (Hlen tb Hin) as [Hk0 Hk1].
      destruct (setcol_ok N n c0 rank (k0 tb) Hc0 Hlt Hk0) as [x0 Hx0].
      destruct (setcol_ok N n c1 rank (k1 tb) Hc1 Hlt Hk1) as [x1 Hx1].
      assert (fill_columns positions n k0 k1 (rank :: rs) (c0, c1)
              = fill_columns positions n k0 k1 rs (x0, x1)) as ->.
      { cbn [fill_columns]. unfold getitem. rewrite Htb. simpl.
        rewrite Hx0. simpl. by rewrite Hx1. }
      specialize (IH x0 x1 (setcol_matrix _ _ _ _ _ _ Hx0 Hc0)
                    (setcol_matrix _ _ _ _ _ _ Hx1 Hc1)).
      destruct (decide (Forall (λ r, r < n) rs)) as [Hall|Hnot];
        destruct (decide (Forall (λ r, r < n) (rank :: rs))) as [Hall'|Hnot'];
        try done.
      * exfalso. apply Hnot'. by constructor.
      * exfalso. apply Hnot. by apply Forall_cons in Hall' as [_ ?].
    + clear IH. destruct (decide (Forall (λ r, r < n) (rank :: rs))) as [Hall|_].
      { exfalso. by apply Forall_cons in Hall as [? _]. }
      cbn [fill_columns]. unfold getitem.
      rewrite lookup_ge_None_2 by lia. done.
Qed.

(** *** [load_property] *)

Lemma elem_of_recognised (prop : string) :
  prop ∈ recognised →
  prop = "velocity" ∨ prop = "normalised nematic" ∨ prop = "nematic" ∨
  prop = "velocity angle" ∨ prop = "nematic angle".
Proof.
  unfold recognised, prop2D, prop1D. simpl.
  rewrite !elem_of_cons, elem_of_nil. tauto.
Qed.

Lemma load_property_recognised input_dir prop :
  prop ∈ recognised →
  load_property input_dir prop
  = let+ c := load_columns (fst (load_pos input_dir))
                (snd (load_pos input_dir)) (snd (load_rankfield input_dir))
                (fst (columns_of prop)) (snd (columns_of prop)) in
    Ok (finish prop (fst c) (snd c)).
Proof.
  intros Hprop. destruct input_dir as [[positions ranks] [rankfield times]].
  unfold load_property, columns_of, finish. simpl.
  apply elem_of_recognised in Hprop as [-> | [-> | [-> | [-> | ->]]]];
    repeat (case_decide; try done); simpl;
    by destruct (load_columns _ _ _ _ _) as [[c0 c1]|e].
Qed.

Lemma load_property_unrecognised input_dir prop :
  prop ∉ recognised → load_property input_dir prop = Ok VNone.
Proof.
  intros Hprop. destruct input_dir as [[positions ranks] [rankfield times]].
  unfold load_property. simpl.
  repeat (case_decide;
          [exfalso; apply Hprop; subst prop; unfold recognised, prop2D, prop1D;
           simpl; set_solver|]).
  done.
Qed.

Lemma load_columns_spec positions ranks times k0 k1 c0 c1 :
  load_columns positions ranks times k0 k1 = Ok (c0, c1) →
  matrix (length times) (length ranks) c0 ∧
  matrix (length times) (length ranks) c1 ∧
  Forall (λ r, r < length ranks ∧ is_Some (positions !! r)) ranks ∧
  ∀ r tb t,
    r ∈ ranks → positions !! r = Some tb → t < length times →
    (length (k0 tb) = length times → entry c0 t r = k0 tb !! t) ∧
    (length (k1 tb) = length times → entry c1 t r = k1 tb !! t).
Proof.
  unfold load_columns. intros Hfill.
  apply fill_columns_split in Hfill as [H0 H1].
  pose proof (matrix_zeros2 (Fin 0) (length times) (length ranks)) as Hz.
  split; [by eapply fill_column_matrix|].
  split; [by eapply fill_column_matrix|].
  split; [by eapply fill_column_bounds|].
  intros r tb t Hr Htb Ht. split; intros Hlen.
  - by eapply fill_column_entry.
  - by eapply fill_column_entry.
Qed.

Lemma full_table_columns N tb prop :
  full_table N tb →
  length (fst (columns_of prop) tb) = N ∧ length (snd (columns_of prop) tb) = N.
Proof.
  intros (? & ? & ? & ? & ? & ?). unfold columns_of.
  by repeat case_decide.
Qed.

Lemma matrix_finish N n prop c0 c1 :
  matrix N n c0 → matrix N n c1 → Forall (matrix N n) (arrays_of (finish prop c0 c1)).
Proof.
  intros H0 H1. unfold finish, nem_orient.
  repeat case_decide; simpl;
    repeat (apply Forall_cons_2); try apply Forall_nil_2;
    repeat first [done | apply matrix_ufunc2 | apply matrix_ufunc1].
Qed.

Lemma finish_not_none prop c0 c1 : finish prop c0 c1 ≠ VNone.
Proof. unfold finish. by repeat case_decide. Qed.

(** C3, as the code has it.  The arrays [load_property] builds have one
    column per loaded rank: their rank dimension is the number of ranks,
    [len(ranks)], not the largest rank plus one.  With one table per rank
    and one row per timestep, indexing by the rank values is in bounds,
    and arrays of shape [len(times), len(ranks)] are returned, exactly
    when every loaded rank is below the number of ranks; otherwise the
    call faults with an index error. *)
Theorem load_property_rank_bound input_dir prop :
  well_formed input_dir → prop ∈ recognised →
  (Forall (λ r, r < length (snd (load_pos input_dir)))
     (snd (load_pos input_dir)) →
   ∃ v, load_property input_dir prop = Ok v ∧ v ≠ VNone ∧
        Forall (matrix (length (snd (load_rankfield input_dir)))
                  (length (snd (load_pos input_dir))))
          (arrays_of v)) ∧
  (¬ Forall (λ r, r < length (snd (load_pos input_dir)))
       (snd (load_pos input_dir)) →
   load_property input_dir prop = Raise IndexError).
Proof.
  intros [Htables Hcols] Hprop.
  rewrite load_property_recognised by done.
  set (positions := fst (load_pos input_dir)) in *.
  set (ranks := snd (load_pos input_dir)) in *.
  set (times := snd (load_rankfield input_dir)) in *.
  pose proof (fill_columns_total positions (length times) (length ranks)
                (fst (columns_of prop)) (snd (columns_of prop)) ranks Htables)
    as Htotal.
  unfold load_columns.
  specialize (Htotal
    (λ tb Htb, full_table_columns _ tb prop
                 (proj1 (Forall_forall _ _) Hcols tb Htb))
    _ _ (matrix_zeros2 (Fin 0) _ _) (matrix_zeros2 (Fin 0) _ _)).
  destruct (decide _) as [Hall|Hnot]; (split; [intros Hall'|intros Hnot']);
    try done.
  - destruct Htotal as [[c0 c1] Hfill]. rewrite Hfill. simpl.
    eexists. split; [done|]. split; [apply finish_not_none|].
    apply load_columns_spec in Hfill as (H0 & H1 & _).
    by apply matrix_finish.
  - by rewrite Htotal.
Qed.

(** C7.  For a property name that is none of the five recognised names,
    [load_property] and [load_fields] raise nothing and return nothing
    (Python's [None]). *)
Theorem unrecognised_property_returns_none input_dir prop h :
  prop ∉ recognised →
  load_property input_dir prop = Ok VNone ∧
  fst (load_fields input_dir prop h) = Ok FNone.
Proof.
  intros Hprop. split; [by apply load_property_unrecognised|].
  destruct input_dir as [[positions ranks] [rankfield times]].
  unfold load_fields. simpl. unfold bind, alloc. simpl.
  assert ((prop ∉ prop2D) ∧ (prop ∉ prop1D)) as [H2 H1].
  { unfold recognised in Hprop. rewrite elem_of_app in Hprop. tauto. }
  rewrite bool_decide_eq_false_2 by done.
  rewrite bool_decide_eq_false_2 by done.
  done.
Qed.

(** *** The two angles *)

(** Case analysis on the comparisons of real numbers in the goal. *)
Ltac decide_reals :=
  repeat (match goal with
          | |- context [Req_dec_T ?a ?b] => destruct (Req_dec_T a b)
          | |- context [Rlt_dec ?a ?b] => destruct (Rlt_dec a b)
          | |- context [Rle_dec ?a ?b] => destruct (Rle_dec a b)
          end; simpl).

Section Angles.
Local Open Scope R_scope.







(** **** The operations on finite numbers *)

Lemma divide_Fin (a b : R) : 0 < b → divide (Fin a) (Fin b) = Fin (a / b).
Proof.
  intros Hb. unfold divide, signed_zero. simpl.
  decide_reals; try (exfalso; lra); try done.
  subst. f_equal. unfold Rdiv. lra.
Qed.

Lemma add_Fin (a b : R) : add (Fin a) (Fin b) = Fin (a + b).
Proof.
  unfold add, signed_zero. simpl.
  decide_reals; try (exfalso; lra); try done.
  subst. f_equal. lra.
Qed.

Lemma multiply_Fin (a b : R) :
  a ≠ 0 → b ≠ 0 → multiply (Fin a) (Fin b) = Fin (a * b).
Proof.
  intros Ha Hb. unfold multiply. simpl. decide_reals; done.
Qed.

Lemma multiply_NaN (x : float) : multiply x NaN = NaN.
Proof. by destruct x. Qed.

(** On finite numbers [np.arctan2] is the angle of the point. *)
Lemma arctan2_Fin (y x : R) : arctan2 (Fin y) (Fin x) = Fin (atan2 y x).
Proof.
  unfold arctan2, atan2, signed, signed_zero. simpl.
  decide_reals; try (exfalso; lra); try done;
    subst; f_equal; rewrite ?Rdiv_0_l, ?atan_0; lra.
Qed.








(** **** The nematic angle *)

Lemma entry_nem_orient S0 S1 t i :
  entry (nem_orient S0 S1) t i
  = match entry S0 t i, entry S1 t i with
    | Some s0, Some s1 => Some (nematic_angle s0 s1)
    | _, _ => None
    end.
Proof.
  unfold nem_orient, nematic_angle.
  rewrite entry_ufunc2, !entry_ufunc1, entry_ufunc2, entry_ufunc1.
  by destruct (entry S0 t i), (entry S1 t i).
Qed.

(** For finite components with [S1] not zero, the nematic angle is the
    real number [sign(S1) * (atan(S0 / |S1|) / 2 + π/4)]. *)
Lemma nematic_angle_Fin (x0 x1 : R) :
  x1 ≠ 0 →
  nematic_angle (Fin x0) (Fin x1)
  = Fin (Rsign x1 * (atan (x0 / Rabs x1) / 2 + PI / 4)).
Proof.
  intros Hx. pose proof (Rabs_pos_lt x1 Hx) as Habs.
  pose proof PI_RGT_0 as Hpi.
  pose proof (atan_bound (x0 / Rabs x1)) as Hb.
  unfold nematic_angle. cbn [absolute].
  rewrite divide_Fin by done. cbn [arctan].
  rewrite divide_Fin by lra. rewrite add_Fin.
  unfold sign, Rsign.
  destruct (Rlt_dec 0 x1); [|destruct (Rlt_dec x1 0); [|lra]];
    by rewrite multiply_Fin by lra.
Qed.

Lemma nematic_angle_plus : nematic_angle (Fin 0) (Fin 1) = Fin (PI / 4).
Proof.
  rewrite nematic_angle_Fin by lra. f_equal. unfold Rsign.
  destruct (Rlt_dec 0 1); [|lra].
  rewrite Rabs_R1. replace (0 / 1) with 0 by lra. rewrite atan_0. lra.
Qed.

Lemma nematic_angle_minus : nematic_angle (Fin 0) (Fin (-1)) = Fin (- (PI / 4)).
Proof.
  rewrite nematic_angle_Fin by lra. f_equal. unfold Rsign.
  destruct (Rlt_dec 0 (-1)); [lra|].
  destruct (Rlt_dec (-1) 0); [|lra].
  rewrite Rabs_left by lra. replace (0 / - -1) with 0 by lra.
  rewrite atan_0. lra.
Qed.

(** Where both components are zero, of either sign, the quotient is
    [0 / 0] and the nematic angle is NaN. *)
Lemma nematic_angle_zero (s0 s1 : float) :
  is_zero s0 = true → is_zero s1 = true → nematic_angle s0 s1 = NaN.
Proof.
  intros H0 H1.
  assert (absolute s1 = Fin 0) as Habs.
  { destruct s1 as [x1| | | |]; try done. simpl in H1.
    destruct (Req_dec_T x1 0) as [->|]; [|done]. simpl. by rewrite Rabs_R0. }
  assert (divide s0 (Fin 0) = NaN) as Hq.
  { destruct s0 as [x0| | | |]; try done; unfold divide; simpl.
    - simpl in H0. destruct (Req_dec_T x0 0); [|done].
      destruct (Req_dec_T 0 0); [done|lra].
    - destruct (Req_dec_T 0 0); [done|lra]. }
  unfold nematic_angle. rewrite Habs, Hq. simpl. apply multiply_NaN.
Qed.

(** With one table per rank, a row per timestep and every rank below
    the number of ranks, a recognised property is resolved: the two
    columns are loaded, and arrays are returned. *)
Lemma load_property_returns input_dir prop :
  well_formed input_dir → prop ∈ recognised →
  Forall (λ r, (r < length (snd (load_pos input_dir)))%nat)
    (snd (load_pos input_dir)) →
  ∃ c0 c1,
    load_columns (fst (load_pos input_dir)) (snd (load_pos input_dir))
      (snd (load_rankfield input_dir))
      (fst (columns_of prop)) (snd (columns_of prop)) = Ok (c0, c1) ∧
    load_property input_dir prop = Ok (finish prop c0 c1).
Proof.
  intros [Htables Hcols] Hprop Hall.
  rewrite load_property_recognised by done.
  pose proof (fill_columns_total (fst (load_pos input_dir))
                (length (snd (load_rankfield input_dir)))
                (length (snd (load_pos input_dir)))
                (fst (columns_of prop)) (snd (columns_of prop))
                (snd (load_pos input_dir)) Htables
                (λ tb Htb, full_table_columns _ tb prop
                             (proj1 (Forall_forall _ _) Hcols tb Htb))
                _ _ (matrix_zeros2 (Fin 0) _ _) (matrix_zeros2 (Fin 0) _ _))
    as Htotal.
  rewrite decide_True in Htotal by done.
  destruct Htotal as [[c0 c1] Hfill]. exists c0, c1.
  unfold load_columns. by rewrite Hfill.
Qed.

(** C5.  On well-formed input the [nematic angle] resolver returns one
    array whose entry for timestep [t] and loaded rank [r] is
    [sign(S1) * (atan(S0 / |S1|) / 2 + π/4)], computed with numpy's
    operations from the full shape-tensor components [S0full], [S1full]
    of the table at position [r].  For finite components with [S1full]
    not zero this is the real number the formula denotes; it is [π/4]
    for [S0full = 0], [S1full = 1], and [-π/4] for [S0full = 0],
    [S1full = -1].  Where both components are zero the entry is NaN. *)
Theorem nematic_angle_formula input_dir :
  well_formed input_dir →
  Forall (λ r, (r < length (snd (load_pos input_dir)))%nat)
    (snd (load_pos input_dir)) →
  ∃ arr,
    load_property input_dir "nematic angle" = Ok (VArr arr) ∧
    ∀ r tb t s0 s1,
      r ∈ snd (load_pos input_dir) →
      fst (load_pos input_dir) !! r = Some tb →
      S0full_col tb !! t = Some s0 → S1full_col tb !! t = Some s1 →
      entry arr t r
      = Some (multiply (sign s1)
                (add (divide (arctan (divide s0 (absolute s1))) (Fin 2))
                   (Fin (PI / 4)))) ∧
      (∀ x0 x1, s0 = Fin x0 → s1 = Fin x1 → x1 ≠ 0 →
                entry arr t r
                = Some (Fin (Rsign x1 * (atan (x0 / Rabs x1) / 2 + PI / 4)))) ∧
      (s0 = Fin 0 → s1 = Fin 1 → entry arr t r = Some (Fin (PI / 4))) ∧
      (s0 = Fin 0 → s1 = Fin (-1) →
       entry arr t r = Some (Fin (- (PI / 4)))) ∧
      (is_zero s0 = true → is_zero s1 = true → entry arr t r = Some NaN).
Proof.
  intros Hwf Hall.
  destruct (load_property_returns input_dir "nematic angle" Hwf)
    as (c0 & c1 & Hfill & Hload); [set_solver|done|].
  exists (nem_orient c0 c1). split; [done|].
  intros r tb t s0 s1 Hr Htb Hs0 Hs1.
  apply load_columns_spec in Hfill as (_ & _ & _ & Hentry).
  assert (full_table (length (snd (load_rankfield input_dir))) tb)
    as (_ & _ & _ & _ & Hl0 & Hl1).
  { destruct Hwf as [_ Hcols]. rewrite Forall_forall in Hcols.
    apply Hcols. apply list_elem_of_lookup. eauto. }
  assert ((t < length (snd (load_rankfield input_dir)))%nat) as Ht.
  { rewrite <- Hl0. by eapply lookup_lt_Some. }
  destruct (Hentry r tb t Hr Htb Ht) as [He0 He1]. simpl in *.
  assert (entry (nem_orient c0 c1) t r = Some (nematic_angle s0 s1)) as Hval.
  { rewrite entry_nem_orient, (He0 Hl0), (He1 Hl1), Hs0, Hs1. done. }
  split; [done|]. rewrite Hval.
  split; [|split; [|split]].
  - intros x0 x1 -> -> Hx1. f_equal. by apply nematic_angle_Fin.
  - intros -> ->. f_equal. apply nematic_angle_plus.
  - intros -> ->. f_equal. apply nematic_angle_minus.
  - intros H0 H1. f_equal. by apply nematic_angle_zero.
Qed.

End Angles.

(** *** Rank values and rank positions *)

Lemma sorted_bounded_seq (rs : list nat) :
  ∀ lo, StronglySorted lt rs →
        Forall (λ r, lo ≤ r < lo + length rs) rs →
        rs = seq lo (length rs).
Proof.
  induction rs as [|r rs IH]; intros lo Hsorted Hbound; [done|].
  apply StronglySorted_inv in Hsorted as [Hsorted Hhd].
  apply Forall_cons in Hbound as [Hr Hbound]. simpl in *.
  assert (rs = seq (S lo) (length rs)) as Hrs.
  { apply IH; [done|]. rewrite Forall_forall in Hhd, Hbound |- *.
    intros x Hx. specialize (Hhd x Hx). specialize (Hbound x Hx). lia. }
  f_equal; [|done].
  destruct rs as [|r' rs']; simpl in *; [lia|].
  apply Forall_cons in Hhd as [Hlt _]. simplify_eq. lia.
Qed.

Lemma last_index_seq (n r : nat) : r < n → last_index (seq 0 n) r r.
Proof.
  intros Hr. split.
  - by apply lookup_seq.
  - intros j Hj Hlook. apply lookup_seq in Hlook. lia.
Qed.

(** Under the loaders' contract, a call of [load_property] that returns
    was given the ranks [0, 1, ..., n-1]. *)
Lemma aligned_ranks_seq input_dir prop v :
  aligned input_dir → prop ∈ recognised →
  load_property input_dir prop = Ok v →
  snd (load_pos input_dir) = seq 0 (length (snd (load_pos input_dir))).
Proof.
  intros [_ Hsorted _] Hprop Hload.
  rewrite load_property_recognised in Hload by done.
  apply rbind_ok in Hload as ([c0 c1] & Hfill & _).
  apply load_columns_spec in Hfill as (_ & _ & Hbound & _).
  apply sorted_bounded_seq; [done|].
  eapply Forall_impl; [done|]. simpl. intros r [Hr _]. lia.
Qed.

Lemma series_of_unrecognised prop : prop ∉ recognised → series_of prop = [].
Proof.
  intros Hprop. unfold series_of.
  repeat (case_decide;
          [exfalso; apply Hprop; subst prop; unfold recognised, prop2D, prop1D;
           simpl; set_solver|]).
  done.
Qed.

(** C4.  Under the loaders' contract (ranks strictly ascending, the table
    at each position that of the rank at that position, a row per
    timestep), every array [load_property] returns has shape
    [len(times), len(ranks)], and for every loaded rank [r] its column [r]
    holds the attribute time series of the table of rank [r]; and
    [get_field] paints the pixels labelled [r] at timestep [t] with the
    entry [t, r] of that array. *)
Theorem load_property_indexed_by_rank input_dir prop v :
  aligned input_dir → load_property input_dir prop = Ok v →
  Forall2
    (λ arr k,
       matrix (length (snd (load_rankfield input_dir)))
         (length (snd (load_pos input_dir))) arr ∧
       ∀ r tb t,
         tb ∈ fst (load_pos input_dir) → rank_col tb = r →
         t < length (snd (load_rankfield input_dir)) →
         entry arr t r = k tb !! t)
    (arrays_of v) (series_of prop) ∧
  ∀ arr h env a g t y x r,
    arr ∈ arrays_of v →
    holds h env a g (snd (load_rankfield input_dir))
      (snd (load_pos input_dir)) arr →
    length g = length (snd (load_rankfield input_dir)) →
    r ∈ snd (load_pos input_dir) →
    pixel g t y x = Some (Z.of_nat r) →
    ∃ l h' out val,
      get_field (Fin 0) env a h = (Ok l, h') ∧ h' !! l = Some (Arr3 out) ∧
      entry arr t r = Some val ∧ pixel out t y x = Some val.
Proof.
  intros Hal Hload.
  destruct (decide (prop ∈ recognised)) as [Hprop|Hprop].
  2:{ rewrite load_property_unrecognised in Hload by done. simplify_eq.
      rewrite series_of_unrecognised by done. simpl.
      split; [constructor|]. intros arr h env a g t y x r Harr.
      by apply elem_of_nil in Harr. }
  pose proof (aligned_ranks_seq input_dir prop v Hal Hprop Hload) as Hseq.
  pose proof Hal as [[Htables Hcols] Hsorted Htabs].
  rewrite load_property_recognised in Hload by done.
  apply rbind_ok in Hload as ([c0 c1] & Hfill & Hv). simpl in Hv.
  set (positions := fst (load_pos input_dir)) in *.
  set (ranks := snd (load_pos input_dir)) in *.
  set (times := snd (load_rankfield input_dir)) in *.
  apply load_columns_spec in Hfill as (Hm0 & Hm1 & Hbound & Hentry).
  assert (Forall (matrix (length times) (length ranks)) (arrays_of v)) as Hmat.
  { simplify_eq. by apply matrix_finish. }
  split.
  - assert (∀ r tb t,
              tb ∈ positions → rank_col tb = r → t < length times →
              entry c0 t r = fst (columns_of prop) tb !! t ∧
              entry c1 t r = snd (columns_of prop) tb !! t) as Hcol.
    { intros r tb t Htb Hrank Ht.
      apply list_elem_of_lookup in Htb as [i Hi].
      assert (ranks !! i = Some r) as Hri.
      { rewrite <- Htabs, list_lookup_fmap, Hi. simpl. by rewrite Hrank. }
      assert (i = r) as ->.
      { rewrite Hseq in Hri. apply lookup_seq in Hri. lia. }
      assert (r ∈ ranks) as Hr by (apply list_elem_of_lookup; eauto).
      assert (tb ∈ positions) as Htb by (apply list_elem_of_lookup; eauto).
      rewrite Forall_forall in Hcols.
      destruct (full_table_columns _ tb prop (Hcols tb Htb)) as [Hl0 Hl1].
      destruct (Hentry r tb t Hr Hi Ht) as [He0 He1]. auto. }
    simplify_eq. unfold finish, series_of, columns_of in *.
    apply elem_of_recognised in Hprop as [-> | [-> | [-> | [-> | ->]]]];
      repeat (case_decide; try done); simpl in *;
      repeat (apply Forall2_cons_2); try apply Forall2_nil_2;
      (split; [by repeat first [done | apply matrix_ufunc2 | apply matrix_ufunc1]|]);
      intros r tb t Htb Hrank Ht;
      destruct (Hcol r tb t Htb Hrank Ht) as [He0 He1];
      try done.
    + rewrite entry_ufunc2, He0, He1, lookup_zip_with.
      by destruct (v1_col tb !! t), (v0_col tb !! t).
    + rewrite entry_nem_orient, He0, He1, lookup_zip_with.
      by destruct (S0full_col tb !! t), (S1full_col tb !! t).
  - intros arr h env a g t y x r Harr Hh Hg Hr Hpix.
    eapply (get_field_last_index (Fin 0)); [done| |done|].
    + rewrite Forall_forall in Hmat. destruct (Hmat arr Harr) as [Hrows Hcolumns].
      by split.
    + rewrite Hseq. apply last_index_seq.
      rewrite Hseq in Hr. apply elem_of_seq in Hr. lia.
Qed.

(** C1.  [get_field] is called on the arrays [load_property] returned.
    With the ranks in strictly ascending order, as [load_pos] sorts the
    distinct ranks of the cells, and a snapshot per timestep, the call
    returns, and the field holds at every pixel whose label at timestep
    [t] is a loaded rank [r] exactly the entry [t, r] of the array: a
    call of [load_property] that returned was given the ranks
    [0, 1, ..., n-1], each at its own position. *)
Theorem get_field_paints_rank input_dir prop v arr h env a t y x r :
  load_property input_dir prop = Ok v → arr ∈ arrays_of v →
  StronglySorted lt (snd (load_pos input_dir)) →
  length (fst (load_rankfield input_dir))
  = length (snd (load_rankfield input_dir)) →
  holds h env a (fst (load_rankfield input_dir))
    (snd (load_rankfield input_dir)) (snd (load_pos input_dir)) arr →
  r ∈ snd (load_pos input_dir) →
  pixel (fst (load_rankfield input_dir)) t y x = Some (Z.of_nat r) →
  ∃ l h' out val,
    get_field (Fin 0) env a h = (Ok l, h') ∧ h' !! l = Some (Arr3 out) ∧
    entry arr t r = Some val ∧ pixel out t y x = Some val.
Proof.
  intros Hload Harr Hsorted Hlen Hh Hr Hpix.
  destruct (decide (prop ∈ recognised)) as [Hprop|Hprop].
  2:{ rewrite load_property_unrecognised in Hload by done. simplify_eq.
      by apply elem_of_nil in Harr. }
  rewrite load_property_recognised in Hload by done.
  apply rbind_ok in Hload as ([c0 c1] & Hfill & Hv). simpl in Hv.
  set (ranks := snd (load_pos input_dir)) in *.
  set (times := snd (load_rankfield input_dir)) in *.
  apply load_columns_spec in Hfill as (Hm0 & Hm1 & Hbound & _).
  assert (Forall (matrix (length times) (length ranks)) (arrays_of v)) as Hmat.
  { simplify_eq. by apply matrix_finish. }
  assert (ranks = seq 0 (length ranks)) as Hseq.
  { apply sorted_bounded_seq; [done|].
    eapply Forall_impl; [done|]. simpl. intros r' [Hr' _]. lia. }
  eapply (get_field_last_index (Fin 0)); [done| |done|].
  - rewrite Forall_forall in Hmat. destruct (Hmat arr Harr) as [Hrows Hcolumns].
    by split.
  - rewrite Hseq. apply last_index_seq.
    rewrite Hseq in Hr. apply elem_of_seq in Hr. lia.
Qed.

(** ** The theorems on the sample inputs *)

Lemma sparse_store_holds :
  holds sparse_store sparse_env 3 sparse_rankfield [0%Z] [1; 2] sparse_a.
Proof. by split. Qed.

Lemma sparse_valid : valid_input sparse_rankfield [0%Z] [1; 2] sparse_a.
Proof. split; [done..|]. by repeat constructor. Qed.

Lemma get_field_unknown_label_zero_witness :
  ∃ l h' out,
    get_field 0%Z sparse_env 3 sparse_store = (Ok l, h') ∧
    h' !! l = Some (Arr3 out) ∧ pixel out 0 0 2 = Some 0%Z.
Proof.
  apply (get_field_unknown_label_zero 0%Z sparse_env 3 sparse_store
           sparse_rankfield [0%Z] [1; 2] sparse_a 0 0 2 9%Z).
  - exact sparse_store_holds.
  - exact sparse_valid.
  - reflexivity.
  - intros r Hr. rewrite !elem_of_cons, elem_of_nil in Hr.
    destruct Hr as [-> | [-> | []]]; done.
Defined.

Lemma get_field_shape_witness :
  ∃ l h' out,
    get_field 0%Z sparse_env 3 sparse_store = (Ok l, h') ∧
    h' !! l = Some (Arr3 out) ∧ length out = length [0%Z] ∧
    ∀ t gt, sparse_rankfield !! t = Some gt →
            ∃ ft, out !! t = Some ft ∧ shape2 ft = shape2 gt.
Proof.
  apply (get_field_shape 0%Z sparse_env 3 sparse_store
           sparse_rankfield [0%Z] [1; 2] sparse_a).
  - exact sparse_store_holds.
  - exact sparse_valid.
Defined.

Lemma get_field_function_of_inputs_witness :
  observe (get_field 0%Z sparse_env 3 sparse_store)
  = observe (get_field 0%Z sparse_env 3
               (snd (get_field 0%Z sparse_env 3 sparse_store))).
Proof.
  apply (get_field_function_of_inputs 0%Z sparse_env 3 sparse_store
           sparse_env 3 (snd (get_field 0%Z sparse_env 3 sparse_store))
           sparse_rankfield [0%Z] [1; 2] sparse_a).
  - exact sparse_store_holds.
  - split; reflexivity.
Defined.

Lemma get_field_leaves_inputs_witness :
  holds (snd (get_field 0%Z sparse_env 3 sparse_store)) sparse_env 3
    sparse_rankfield [0%Z] [1; 2] sparse_a ∧
  (∀ l, l ∈ dom sparse_store →
        snd (get_field 0%Z sparse_env 3 sparse_store) !! l = sparse_store !! l) ∧
  (∀ l, fst (get_field 0%Z sparse_env 3 sparse_store) = Ok l →
        l ∉ dom sparse_store).
Proof.
  apply (get_field_leaves_inputs 0%Z sparse_env 3 sparse_store
           sparse_rankfield [0%Z] [1; 2] sparse_a).
  exact sparse_store_holds.
Defined.

Lemma two_cells_well_formed : well_formed two_cells.
Proof. split; [done|]. by repeat constructor. Qed.

Lemma two_cells_aligned : aligned two_cells.
Proof.
  split; [exact two_cells_well_formed| |done].
  repeat constructor.
Qed.

Lemma two_cells_bounded :
  Forall (λ r, r < length (snd (load_pos two_cells))) (snd (load_pos two_cells)).
Proof. simpl. repeat constructor. Qed.

(** C3 fails as stated: for the ranks 0 and 2 the arrays have two
    columns, one per rank, and not three, and indexing by rank 2 faults. *)
Lemma load_property_gap_faults :
  well_formed gap_cells ∧
  length (snd (load_pos gap_cells)) = 2 ∧
  list_max (snd (load_pos gap_cells)) + 1 = 3 ∧
  load_property gap_cells "velocity" = Raise IndexError.
Proof.
  split; [|done]. split; [done|]. by repeat constructor.
Qed.

Lemma load_property_rank_bound_witness :
  (Forall (λ r, r < length (snd (load_pos two_cells)))
     (snd (load_pos two_cells)) →
   ∃ v, load_property two_cells "velocity" = Ok v ∧ v ≠ VNone ∧
        Forall (matrix (length (snd (load_rankfield two_cells)))
                  (length (snd (load_pos two_cells))))
          (arrays_of v)) ∧
  (¬ Forall (λ r, r < length (snd (load_pos two_cells)))
       (snd (load_pos two_cells)) →
   load_property two_cells "velocity" = Raise IndexError).
Proof.
  apply (load_property_rank_bound two_cells "velocity").
  - exact two_cells_well_formed.
  - unfold recognised, prop2D, prop1D. set_solver.
Defined.

Example two_cells_velocity :
  load_property two_cells "velocity" = Ok (VPair two_cells_v0 two_cells_v1).
Proof. reflexivity. Qed.

Lemma two_cells_store_holds :
  holds two_cells_store sparse_env 3 (fst (load_rankfield two_cells))
    (snd (load_rankfield two_cells)) (snd (load_pos two_cells)) two_cells_v0.
Proof. by split. Qed.

Lemma get_field_paints_rank_witness :
  ∃ l h' out val,
    get_field (Fin 0) sparse_env 3 two_cells_store = (Ok l, h') ∧
    h' !! l = Some (Arr3 out) ∧
    entry two_cells_v0 1 1 = Some val ∧ pixel out 1 0 1 = Some val.
Proof.
  apply (get_field_paints_rank two_cells "velocity"
           (VPair two_cells_v0 two_cells_v1) two_cells_v0 two_cells_store
           sparse_env 3 1 0 1 1).
  - reflexivity.
  - by left.
  - repeat constructor.
  - reflexivity.
  - exact two_cells_store_holds.
  - simpl. right. by left.
  - reflexivity.
Defined.

Lemma load_property_indexed_by_rank_witness :
  Forall2
    (λ arr k,
       matrix (length (snd (load_rankfield two_cells)))
         (length (snd (load_pos two_cells))) arr ∧
       ∀ r tb t,
         tb ∈ fst (load_pos two_cells) → rank_col tb = r →
         t < length (snd (load_rankfield two_cells)) →
         entry arr t r = k tb !! t)
    (arrays_of (VPair two_cells_v0 two_cells_v1))
    (series_of "velocity") ∧
  ∀ arr h env a g t y x r,
    arr ∈ arrays_of (VPair two_cells_v0 two_cells_v1) →
    holds h env a g (snd (load_rankfield two_cells))
      (snd (load_pos two_cells)) arr →
    length g = length (snd (load_rankfield two_cells)) →
    r ∈ snd (load_pos two_cells) →
    pixel g t y x = Some (Z.of_nat r) →
    ∃ l h' out val,
      get_field (Fin 0) env a h = (Ok l, h') ∧ h' !! l = Some (Arr3 out) ∧
      entry arr t r = Some val ∧ pixel out t y x = Some val.
Proof.
  apply (load_property_indexed_by_rank two_cells "velocity").
  - exact two_cells_aligned.
  - reflexivity.
Defined.

Lemma nematic_angle_formula_witness :
  ∃ arr,
    load_property two_cells "nematic angle" = Ok (VArr arr) ∧
    ∀ r tb t s0 s1,
      r ∈ snd (load_pos two_cells) →
      fst (load_pos two_cells) !! r = Some tb →
      S0full_col tb !! t = Some s0 → S1full_col tb !! t = Some s1 →
      entry arr t r
      = Some (multiply (sign s1)
                (add (divide (arctan (divide s0 (absolute s1))) (Fin 2))
                   (Fin (PI / 4)))) ∧
      (∀ x0 x1, s0 = Fin x0 → s1 = Fin x1 → x1 ≠ 0%R →
                entry arr t r
                = Some (Fin (Rsign x1 * (atan (x0 / Rabs x1) / 2 + PI / 4)))) ∧
      (s0 = Fin 0 → s1 = Fin 1 → entry arr t r = Some (Fin (PI / 4))) ∧
      (s0 = Fin 0 → s1 = Fin (-1) →
       entry arr t r = Some (Fin (- (PI / 4)))) ∧
      (is_zero s0 = true → is_zero s1 = true → entry arr t r = Some NaN).
Proof.
  apply (nematic_angle_formula two_cells).
  - exact two_cells_well_formed.
  - exact two_cells_bounded.
Defined.




Lemma unrecognised_property_returns_none_witness :
  load_property two_cells "density" = Ok VNone ∧
  fst (load_fields two_cells "density" ∅) = Ok FNone.
Proof.
  apply (unrecognised_property_returns_none two_cells "density" ∅).
  unfold recognised, prop2D, prop1D. simpl.
  rewrite !elem_of_cons, elem_of_nil. intros H.
  repeat (destruct H as [H|H]; [discriminate H|]). exact H.
Defined.

(** The scenario of the specification: the velocity fields of two cells,
    rank 0 on the left pixel and rank 1 on the right one, are [1, 2] then
    [3, 4] for the first component and zero for the second. *)
Example load_fields_two_cells :
  fst (load_fields two_cells "velocity" ∅) = Ok (FPair 5 6) ∧
  snd (load_fields two_cells "velocity" ∅) !! 5
  = Some (Arr3 [floats <$> [[1; 2]]; floats <$> [[3; 4]]]%R) ∧
  snd (load_fields two_cells "velocity" ∅) !! 6
  = Some (Arr3 [floats <$> [[0; 0]]; floats <$> [[0; 0]]]%R).
Proof. repeat split; vm_compute; reflexivity. Qed.

(** * Further properties *)

(** ** The inputs [get_field] accepts *)

Section PainterDomain.
Context {V : Type} (zero : V).
Implicit Types (h : heap V) (g : list (list (list Z))) (gt : list (list Z)).
Implicit Types (f : list (list (list V))) (ft : list (list V)).
Implicit Types (av : list (list V)) (row ts : list V) (rs : list nat).

Lemma bind_fail {A B} (m : M V A) (k : A → M V B) h e :
  fst (m h) = Raise e → fst (bind m k h) = Raise e.
Proof. unfold bind. destruct (m h) as [[x|e'] h1]; simpl; congruence. Qed.

(** The inner loop raises as soon as snapshot [indt] or an entry of row
    [indt] is missing. *)
Lemma inner_fail env a l indt g av rs :
  l ≠ a → l ≠ rankfield env →
  rs ≠ [] →
  ∀ indr h f,
    h !! a = Some (Arr2 av) →
    h !! rankfield env = Some (LabelArr3 g) →
    h !! l = Some (Arr3 f) →
    shape3 g = shape3 f →
    ¬ (indt < length g ∧ is_Some (av !! indt) ∧
       indr + length rs ≤ length (default [] (av !! indt))) →
    fst (for_enum indr rs (inner_body env a l indt) h) = Raise IndexError.
Proof.
  intros Hla Hlrf.
  induction rs as [|rank rs IH]; intros Hne indr h f Ha Hrf Hl Hsh Hbad;
    [done|].
  cbn [for_enum].
  destruct (entry av indt indr) as [v|] eqn:Hv.
  2:{ apply bind_fail. unfold inner_body. apply bind_fail.
      unfold getitem2. by rewrite Ha, Hv. }
  destruct (g !! indt) as [gt|] eqn:Hgt.
  2:{ apply bind_fail. unfold inner_body.
      erewrite bind_ok by (by eapply getitem2_ok).
      apply bind_fail. unfold mask_eq. by rewrite Hrf, Hgt. }
  destruct (shape3_lookup g f indt gt Hsh Hgt) as (ft & Hft & Hsh2).
  erewrite bind_ok.
  2:{ unfold inner_body.
      erewrite bind_ok by (by eapply getitem2_ok).
      erewrite bind_ok by (by eapply mask_eq_ok).
      apply setitem_masked_ok; [done..|]. by rewrite shape2_eq_mask. }
  unfold entry in Hv. destruct (av !! indt) as [row|] eqn:Hrow; [|done].
  simpl in Hbad.
  assert (indr < length row) as Hlt by by eapply lookup_lt_Some.
  assert (indt < length g) as Hlg by by eapply lookup_lt_Some.
  destruct rs as [|rank' rs'].
  { exfalso. apply Hbad. simpl. split; [done|]. split; [by eexists|lia]. }
  eapply (IH ltac:(done) (S indr) _
            (<[indt := assign_mask (eq_mask gt rank) v ft]> f)).
  - by rewrite lookup_insert_ne.
  - by rewrite lookup_insert_ne.
  - by rewrite lookup_insert_eq.
  - eapply shape3_insert; [done..|].
    rewrite shape2_assign_mask; [done|]. by rewrite shape2_eq_mask.
  - simpl in *. intros (_ & _ & Hle). apply Hbad.
    split; [done|]. split; [by eexists|lia].
Qed.

(** The outer loop paints when every timestep can be painted, and raises
    an index error at the first one that cannot. *)
Lemma outer_domain env a l g av rs :
  l ≠ a → l ≠ rankfield env → l ≠ ranks env →
  rs ≠ [] →
  ∀ ts indt h f,
    h !! a = Some (Arr2 av) →
    h !! rankfield env = Some (LabelArr3 g) →
    h !! ranks env = Some (IntArr rs) →
    h !! l = Some (Arr3 f) →
    shape3 g = shape3 f →
    if decide (Forall (step_ok g rs av) (seq indt (length ts)))
    then for_enum indt ts (outer_body env a l) h
         = (Ok tt, <[l := Arr3 (paint_times zero av rs g indt (length ts) f)]> h)
    else fst (for_enum indt ts (outer_body env a l) h) = Raise IndexError.
Proof.
  intros Hla Hlrf Hlrk Hne.
  induction ts as [|time ts IH]; intros indt h f Ha Hrf Hrk Hl Hsh.
  - cbn [length seq for_enum].
    destruct (decide (Forall (step_ok g rs av) [])) as [_|Hnot].
    + unfold ret. simpl. by rewrite insert_id.
    + exfalso. apply Hnot. constructor.
  - cbn [length seq for_enum].
    destruct (decide (step_ok g rs av indt)) as [Hok|Hbad].
    + destruct Hok as (Hlt & [row Hrow] & Hlen). rewrite Hrow in Hlen.
      simpl in Hlen.
      destruct (lookup_lt_is_Some_2 g indt) as [gt Hgt]; [done|].
      destruct (shape3_lookup g f indt gt Hsh Hgt) as (ft & Hft & Hsh2).
      assert (outer_body env a l indt time h
              = (Ok tt, <[l := Arr3 (<[indt := paint_ranks zero row 0 rs gt ft]> f)]> h))
        as Hbody.
      { unfold outer_body.
        erewrite bind_ok by (by eapply iter_ranks_ok).
        by eapply inner_run. }
      rewrite (bind_ok _ _ _ _ _ Hbody).
      specialize (IH (S indt) (<[l := Arr3 (<[indt := paint_ranks zero row 0 rs gt ft]> f)]> h)
                    (<[indt := paint_ranks zero row 0 rs gt ft]> f)).
      rewrite !lookup_insert_ne, lookup_insert_eq in IH by done.
      specialize (IH Ha Hrf Hrk eq_refl).
      specialize (IH ltac:(eapply shape3_insert; [done..|];
                           by rewrite shape2_paint_ranks)).
      destruct (decide (Forall (step_ok g rs av) (seq (S indt) (length ts))))
        as [Hall|Hnot];
        destruct (decide (Forall (step_ok g rs av)
                            (indt :: seq (S indt) (length ts))))
        as [Hall'|Hnot'].
      * rewrite IH, insert_insert_eq. simpl. by rewrite Hrow, Hgt, Hft.
      * exfalso. apply Hnot'. constructor; [|done].
        split; [done|]. rewrite Hrow. eauto.
      * exfalso. apply Hnot. by apply Forall_cons in Hall' as [_ ?].
      * done.
    + destruct (decide (Forall (step_ok g rs av)
                          (indt :: seq (S indt) (length ts))))
        as [Hall|_].
      { exfalso. by apply Forall_cons in Hall as [? _]. }
      apply bind_fail. unfold outer_body.
      erewrite bind_ok by (by eapply iter_ranks_ok).
      eapply inner_fail; [done..|]. simpl.
      intros (? & ? & ?). by apply Hbad.
Qed.

Lemma paint_ranks_nil row indr gt ft : paint_ranks zero row indr [] gt ft = ft.
Proof. done. Qed.

Lemma paint_times_no_rank av g n :
  ∀ indt f, paint_times zero av [] g indt n f = f.
Proof.
  induction n as [|n IH]; intros indt f; simpl; [done|].
  rewrite IH. destruct (f !! indt) as [ft|] eqn:Hft; simpl.
  - by apply list_insert_id.
  - apply list_insert_ge. by apply lookup_ge_None_1.
Qed.

Lemma outer_no_rank env a l :
  ∀ ts indt h,
    h !! ranks env = Some (IntArr []) →
    for_enum indt ts (outer_body env a l) h = (Ok tt, h).
Proof.
  induction ts as [|time ts IH]; intros indt h Hrk; [done|].
  cbn [for_enum].
  erewrite bind_ok; [by apply IH|].
  unfold outer_body. by erewrite bind_ok by (by eapply iter_ranks_ok).
Qed.

(** The domain of [get_field]. *)
Lemma get_field_total env a h g ts rs av :
  holds h env a g ts rs av →
  if decide (paintable g ts rs av)
  then get_field zero env a h
       = (Ok (fresh (dom h)),
          <[fresh (dom h) := Arr3 (paint zero av rs g (length ts))]> h)
  else fst (get_field zero env a h) = Raise IndexError.
Proof.
  intros [Hrf Htm Hrk Ha].
  set (l := fresh (dom h)).
  assert (l ≠ rankfield env) as Hlrf by by eapply fresh_not_held.
  assert (l ≠ times env) as Hltm by by eapply fresh_not_held.
  assert (l ≠ ranks env) as Hlrk by by eapply fresh_not_held.
  assert (l ≠ a) as Hla by by eapply fresh_not_held.
  rewrite get_field_unfold.
  erewrite bind_ok by (by eapply get_shape_ok).
  erewrite bind_ok by (unfold alloc; fold l; reflexivity).
  erewrite bind_ok by (eapply iter_axis_ok; by rewrite lookup_insert_ne).
  destruct (decide (rs = [])) as [->|Hne].
  { destruct (decide (paintable g ts [] av)) as [_|Hnot];
      [|exfalso; apply Hnot; by left].
    erewrite bind_ok.
    2:{ apply outer_no_rank. by rewrite lookup_insert_ne. }
    unfold ret, paint. by rewrite paint_times_no_rank. }
  pose proof (outer_domain env a l g av rs Hla Hlrf Hlrk Hne ts 0
                (<[l := Arr3 (zeros3 zero (shape3 g))]> h)
                (zeros3 zero (shape3 g))) as Hloop.
  rewrite !lookup_insert_ne, lookup_insert_eq in Hloop by done.
  specialize (Hloop Ha Hrf Hrk eq_refl ltac:(by rewrite shape3_zeros3)).
  destruct (decide (Forall (step_ok g rs av) (seq 0 (length ts))))
    as [Hall|Hnot];
    destruct (decide (paintable g ts rs av)) as [Hp|Hnp].
  - rewrite (bind_ok _ _ _ _ _ Hloop). unfold ret.
    by rewrite insert_insert_eq.
  - exfalso. apply Hnp. by right.
  - by destruct Hp.
  - by apply bind_fail.
Qed.
End PainterDomain.

(** ** [load_fields] as a whole *)

Section LoadFields.
Implicit Types (h : heap float) (g : list (list (list Z))).

Lemma valid_input_paintable {V} g (ts : list V) rs (av : list (list V)) :
  valid_input g ts rs av → paintable g ts rs av.
Proof.
  intros [Hsnap Hrows Hcols]. right. apply Forall_forall. intros t Ht.
  apply elem_of_seq in Ht.
  destruct (lookup_lt_is_Some_2 av t) as [row Hrow]; [lia|].
  split; [lia|]. rewrite Hrow. split; [by eexists|]. simpl.
  rewrite Forall_forall in Hcols. rewrite (Hcols row); [done|].
  apply list_elem_of_lookup. eauto.
Qed.

Lemma insert_fresh_lookup {V} (h : heap V) l x y :
  h !! l = Some x → <[fresh (dom h) := y]> h !! l = Some x.
Proof.
  intros Hl. rewrite lookup_insert_ne; [done|]. by eapply fresh_not_held.
Qed.

Lemma insert_fresh_subseteq {V} (h : heap V) y : h ⊆ <[fresh (dom h) := y]> h.
Proof. apply insert_subseteq, not_elem_of_dom, is_fresh. Qed.

(** The field of a scalar array [arr], when [get_field] is run in a store
    that holds the inputs. *)
Lemma get_field_paint env a h g ts rs (av : list (list float)) :
  holds h env a g ts rs av → paintable g ts rs av →
  get_field (Fin 0) env a h
  = (Ok (fresh (dom h)),
     <[fresh (dom h) := Arr3 (paint (Fin 0) av rs g (length ts))]> h).
Proof.
  intros Hh Hp. pose proof (get_field_total (Fin 0) env a h g ts rs av Hh) as Ht.
  by rewrite decide_True in Ht.
Qed.

Lemma load_fields_run_2D input_dir prop h c0 c1 :
  prop ∈ prop2D →
  load_property input_dir prop = Ok (VPair c0 c1) →
  paintable (fst (load_rankfield input_dir)) (snd (load_rankfield input_dir))
    (snd (load_pos input_dir)) c0 →
  paintable (fst (load_rankfield input_dir)) (snd (load_rankfield input_dir))
    (snd (load_pos input_dir)) c1 →
  ∃ l0 l1 h',
    load_fields input_dir prop h = (Ok (FPair l0 l1), h') ∧
    l0 ≠ l1 ∧ (l0 ∉ dom h) ∧ (l1 ∉ dom h) ∧ h ⊆ h' ∧
    h' !! l0 = Some (Arr3 (paint (Fin 0) c0 (snd (load_pos input_dir))
                             (fst (load_rankfield input_dir))
                             (length (snd (load_rankfield input_dir))))) ∧
    h' !! l1 = Some (Arr3 (paint (Fin 0) c1 (snd (load_pos input_dir))
                             (fst (load_rankfield input_dir))
                             (length (snd (load_rankfield input_dir))))).
Proof.
  intros Hprop Hload Hp0 Hp1. unfold load_fields.
  destruct input_dir as [[positions rs] [g ts]]. simpl in *.
  rewrite bool_decide_eq_true_2 by done.
  set (h1 := <[fresh (dom h) := IntArr rs]> h).
  set (h2 := <[fresh (dom h1) := LabelArr3 g]> h1).
  set (h3 := <[fresh (dom h2) := Arr1 ts]> h2).
  set (h4 := <[fresh (dom h3) := Arr2 c0]> h3).
  set (h5 := <[fresh (dom h4) := Arr2 c1]> h4).
  set (env := Closure (fresh (dom h1)) (fresh (dom h2)) (fresh (dom h))).
  assert (holds h5 env (fresh (dom h3)) g ts rs c0) as Hh0.
  { split; simpl; unfold h5, h4, h3, h2, h1;
      repeat first [apply lookup_insert_eq | apply insert_fresh_lookup]. }
  assert (holds h5 env (fresh (dom h4)) g ts rs c1) as Hh1.
  { split; simpl; unfold h5, h4, h3, h2, h1;
      repeat first [apply lookup_insert_eq | apply insert_fresh_lookup]. }
  set (h6 := <[fresh (dom h5) := Arr3 (paint (Fin 0) c0 rs g (length ts))]> h5).
  assert (holds h6 env (fresh (dom h4)) g ts rs c1) as Hh1'.
  { destruct Hh1. split; by apply insert_fresh_lookup. }
  set (h7 := <[fresh (dom h6) := Arr3 (paint (Fin 0) c1 rs g (length ts))]> h6).
  exists (fresh (dom h5)), (fresh (dom h6)), h7.
  assert (h ⊆ h5) as Hsub5.
  { unfold h5, h4, h3, h2, h1.
    repeat (etrans; [|apply insert_fresh_subseteq]). done. }
  assert (h5 !! fresh (dom h5) = None) as Hf5
      by apply not_elem_of_dom, is_fresh.
  assert (h6 !! fresh (dom h6) = None) as Hf6
      by apply not_elem_of_dom, is_fresh.
  split; [|split; [|split; [|split; [|split; [|split]]]]].
  - unfold bind at 1. unfold alloc at 1. fold h1.
    unfold bind at 1. unfold alloc at 1. fold h2.
    unfold bind at 1. unfold alloc at 1. fold h3.
    unfold bind at 1. unfold lift at 1. rewrite Hload.
    unfold bind at 1. unfold alloc at 1. fold h4.
    unfold bind at 1. unfold alloc at 1. fold h5.
    fold env.
    rewrite (bind_ok _ _ _ _ _ (get_field_paint env _ h5 g ts rs c0 Hh0 Hp0)).
    fold h6.
    rewrite (bind_ok _ _ _ _ _ (get_field_paint env _ h6 g ts rs c1 Hh1' Hp1)).
    done.
  - intros Heq. rewrite <- Heq in Hf6. unfold h6 in Hf6.
    by rewrite lookup_insert_eq in Hf6.
  - intros Hin. apply elem_of_dom in Hin as [x Hx].
    eapply lookup_weaken in Hx; [|exact Hsub5]. by rewrite Hf5 in Hx.
  - intros Hin. apply elem_of_dom in Hin as [x Hx].
    assert (h ⊆ h6) as Hsub6.
    { etrans; [exact Hsub5|]. apply insert_fresh_subseteq. }
    eapply lookup_weaken in Hx; [|exact Hsub6]. by rewrite Hf6 in Hx.
  - unfold h7, h6.
    repeat (etrans; [|apply insert_fresh_subseteq]). done.
  - unfold h7. apply insert_fresh_lookup. unfold h6. apply lookup_insert_eq.
  - unfold h7. apply lookup_insert_eq.
Qed.

Lemma load_fields_run_1D input_dir prop h arr :
  prop ∉ prop2D → prop ∈ prop1D →
  load_property input_dir prop = Ok (VArr arr) →
  paintable (fst (load_rankfield input_dir)) (snd (load_rankfield input_dir))
    (snd (load_pos input_dir)) arr →
  ∃ l h',
    load_fields input_dir prop h = (Ok (FArr l), h') ∧
    (l ∉ dom h) ∧ h ⊆ h' ∧
    h' !! l = Some (Arr3 (paint (Fin 0) arr (snd (load_pos input_dir))
                            (fst (load_rankfield input_dir))
                            (length (snd (load_rankfield input_dir))))).
Proof.
  intros Hnot Hprop Hload Hp. unfold load_fields.
  destruct input_dir as [[positions rs] [g ts]]. simpl in *.
  rewrite bool_decide_eq_false_2 by done.
  rewrite bool_decide_eq_true_2 by done.
  set (h1 := <[fresh (dom h) := IntArr rs]> h).
  set (h2 := <[fresh (dom h1) := LabelArr3 g]> h1).
  set (h3 := <[fresh (dom h2) := Arr1 ts]> h2).
  set (h4 := <[fresh (dom h3) := Arr2 arr]> h3).
  set (env := Closure (fresh (dom h1)) (fresh (dom h2)) (fresh (dom h))).
  assert (holds h4 env (fresh (dom h3)) g ts rs arr) as Hh.
  { split; simpl; unfold h4, h3, h2, h1;
      repeat first [apply lookup_insert_eq | apply insert_fresh_lookup]. }
  set (h5 := <[fresh (dom h4) := Arr3 (paint (Fin 0) arr rs g (length ts))]> h4).
  exists (fresh (dom h4)), h5.
  assert (h ⊆ h4) as Hsub4.
  { unfold h4, h3, h2, h1.
    repeat (etrans; [|apply insert_fresh_subseteq]). done. }
  assert (h4 !! fresh (dom h4) = None) as Hf4
      by apply not_elem_of_dom, is_fresh.
  split; [|split; [|split]].
  - unfold bind at 1. unfold alloc at 1. fold h1.
    unfold bind at 1. unfold alloc at 1. fold h2.
    unfold bind at 1. unfold alloc at 1. fold h3.
    unfold bind at 1. unfold lift at 1. rewrite Hload.
    unfold bind at 1. unfold alloc at 1. fold h4.
    fold env.
    rewrite (bind_ok _ _ _ _ _ (get_field_paint env _ h4 g ts rs arr Hh Hp)).
    done.
  - intros Hin. apply elem_of_dom in Hin as [x Hx].
    eapply lookup_weaken in Hx; [|exact Hsub4]. by rewrite Hf4 in Hx.
  - unfold h5. etrans; [exact Hsub4|]. apply insert_fresh_subseteq.
  - unfold h5. apply lookup_insert_eq.
Qed.
End LoadFields.

Section LoadFieldsProperties.
Implicit Types (h : heap float) (g : list (list (list Z))).

Lemma finish_2D prop c0 c1 : prop ∈ prop2D → finish prop c0 c1 = VPair c0 c1.
Proof.
  unfold prop2D, finish. rewrite !elem_of_cons, elem_of_nil.
  intros [-> | [-> | [-> | []]]]; by repeat case_decide.
Qed.

Lemma finish_1D prop c0 c1 :
  prop ∈ prop1D → (prop ∉ prop2D) ∧ ∃ arr, finish prop c0 c1 = VArr arr.
Proof.
  unfold prop1D, prop2D, finish. rewrite !elem_of_cons, elem_of_nil.
  intros [-> | [-> | []]]; (split; [by intros [?|[?|[?|[]]]]|]);
    repeat case_decide; try done; eauto.
Qed.

(** The arrays returned for a recognised name, column by column. *)
Lemma finish_series input_dir prop c0 c1 :
  aligned input_dir → prop ∈ recognised →
  load_columns (fst (load_pos input_dir)) (snd (load_pos input_dir))
    (snd (load_rankfield input_dir))
    (fst (columns_of prop)) (snd (columns_of prop)) = Ok (c0, c1) →
  snd (load_pos input_dir) = seq 0 (length (snd (load_pos input_dir))) ∧
  Forall2
    (λ arr k,
       matrix (length (snd (load_rankfield input_dir)))
         (length (snd (load_pos input_dir))) arr ∧
       ∀ tb t,
         tb ∈ fst (load_pos input_dir) →
         t < length (snd (load_rankfield input_dir)) →
         rank_col tb ∈ snd (load_pos input_dir) ∧
         is_Some (k tb !! t) ∧
         entry arr t (rank_col tb) = k tb !! t)
    (arrays_of (finish prop c0 c1)) (series_of prop).
Proof.
  intros Hal Hprop Hfill.
  pose proof Hal as [[Htables Hcols] Hsorted Htabs].
  set (positions := fst (load_pos input_dir)) in *.
  set (ranks := snd (load_pos input_dir)) in *.
  set (times := snd (load_rankfield input_dir)) in *.
  apply load_columns_spec in Hfill as (Hm0 & Hm1 & Hbound & Hentry).
  assert (ranks = seq 0 (length ranks)) as Hseq.
  { apply sorted_bounded_seq; [done|].
    eapply Forall_impl; [done|]. simpl. intros r [Hr _]. lia. }
  split; [done|].
  assert (∀ tb t,
            tb ∈ positions → t < length times →
            rank_col tb ∈ ranks ∧ full_table (length times) tb ∧
            entry c0 t (rank_col tb) = fst (columns_of prop) tb !! t ∧
            entry c1 t (rank_col tb) = snd (columns_of prop) tb !! t) as Hcol.
  { intros tb t Htb Ht.
    apply list_elem_of_lookup in Htb as [i Hi].
    assert (ranks !! i = Some (rank_col tb)) as Hri.
    { by rewrite <- Htabs, list_lookup_fmap, Hi. }
    assert (i = rank_col tb) as Heq.
    { rewrite Hseq in Hri. apply lookup_seq in Hri. lia. }
    rewrite Heq in Hi.
    assert (rank_col tb ∈ ranks) as Hr by (apply list_elem_of_lookup; eauto).
    assert (tb ∈ positions) as Htb by (apply list_elem_of_lookup; eauto).
    rewrite Forall_forall in Hcols.
    destruct (full_table_columns _ tb prop (Hcols tb Htb)) as [Hl0 Hl1].
    destruct (Hentry (rank_col tb) tb t Hr Hi Ht) as [He0 He1]. auto. }
  unfold finish, series_of, columns_of in *.
  apply elem_of_recognised in Hprop as [-> | [-> | [-> | [-> | ->]]]];
    repeat (case_decide; try done); simpl in *;
    repeat (apply Forall2_cons_2); try apply Forall2_nil_2;
    (split; [by repeat first [done | apply matrix_ufunc2 | apply matrix_ufunc1]|]);
    intros tb t Htb Ht;
    destruct (Hcol tb t Htb Ht)
      as (Hr & (Hv0 & Hv1 & HS0 & HS1 & HS0f & HS1f) & He0 & He1);
    (split; [done|]);
    try (split; [apply lookup_lt_is_Some; congruence|done]).
  - destruct (lookup_lt_is_Some_2 (v0_col tb) t) as [x0 Hx0]; [lia|].
    destruct (lookup_lt_is_Some_2 (v1_col tb) t) as [x1 Hx1]; [lia|].
    rewrite entry_ufunc2, He0, He1, lookup_zip_with, Hx0, Hx1. simpl. eauto.
  - destruct (lookup_lt_is_Some_2 (S0full_col tb) t) as [x0 Hx0]; [lia|].
    destruct (lookup_lt_is_Some_2 (S1full_col tb) t) as [x1 Hx1]; [lia|].
    rewrite entry_nem_orient, He0, He1, lookup_zip_with, Hx0, Hx1. simpl. eauto.
Qed.

(** The pixels of a painted field. *)
Lemma pixel_paint_last {V} (zero : V) g ts rs av t y x r i :
  valid_input g ts rs av →
  pixel g t y x = Some (Z.of_nat r) → last_index rs r i →
  is_Some (entry av t i) ∧
  pixel (paint zero av rs g (length ts)) t y x = entry av t i.
Proof.
  intros Hv Hpix Hlast.
  destruct (pixel_paint zero g ts rs av t y x _ Hv Hpix)
    as (row & Hrow & Hlen & Hout).
  destruct (lookup_lt_is_Some_2 row i) as [v Hi].
  { rewrite Hlen. destruct Hlast as [Hi _]. by eapply lookup_lt_Some. }
  unfold entry at 1 2. rewrite Hrow, Hi. split; [by eexists|].
  rewrite Hout, (pixel_value_last zero row rs r i 0 zero Hlast). simpl.
  by rewrite Hi.
Qed.

Lemma pixel_paint_absent {V} (zero : V) g ts rs av t y x label :
  valid_input g ts rs av →
  pixel g t y x = Some label → (∀ r, r ∈ rs → label ≠ Z.of_nat r) →
  pixel (paint zero av rs g (length ts)) t y x = Some zero.
Proof.
  intros Hv Hpix Hno.
  destruct (pixel_paint zero g ts rs av t y x _ Hv Hpix)
    as (row & Hrow & Hlen & Hout).
  rewrite Hout. f_equal. by apply pixel_value_absent.
Qed.

(** X4.  What [load_fields] returns, pixel by pixel.  Under the loaders'
    contract, with the ranks below their number and a snapshot per
    timestep, [load_fields] returns for a recognised name one field per
    series of that name; a pixel labelled with the rank of a table holds
    the value of the series of that table at the timestep of the
    snapshot, and a pixel labelled with no loaded rank holds zero. *)
Theorem load_fields_paints_series input_dir prop h :
  aligned input_dir →
  Forall (λ r, r < length (snd (load_pos input_dir)))
    (snd (load_pos input_dir)) →
  prop ∈ recognised →
  length (fst (load_rankfield input_dir))
  = length (snd (load_rankfield input_dir)) →
  ∃ fs h',
    load_fields input_dir prop h = (Ok fs, h') ∧
    Forall2
      (λ l k,
         ∃ out,
           h' !! l = Some (Arr3 out) ∧
           ∀ t y x label,
             pixel (fst (load_rankfield input_dir)) t y x = Some label →
             (∀ tb, tb ∈ fst (load_pos input_dir) →
                    label = Z.of_nat (rank_col tb) →
                    is_Some (k tb !! t) ∧ pixel out t y x = k tb !! t) ∧
             ((∀ r, r ∈ snd (load_pos input_dir) → label ≠ Z.of_nat r) →
              pixel out t y x = Some (Fin 0)))
      (fields_of fs) (series_of prop).
Proof.
  intros Hal Hbound Hprop Hlen.
  destruct (load_property_returns input_dir prop (aligned_wf _ Hal) Hprop Hbound)
    as (c0 & c1 & Hfill & Hload).
  destruct (finish_series input_dir prop c0 c1 Hal Hprop Hfill) as [Hseq Hser].
  set (positions := fst (load_pos input_dir)) in *.
  set (ranks := snd (load_pos input_dir)) in *.
  set (g := fst (load_rankfield input_dir)) in *.
  set (ts := snd (load_rankfield input_dir)) in *.
  assert (∀ (arr : list (list float)) (k : table → list float),
            (matrix (length ts) (length ranks) arr ∧
             ∀ tb t, tb ∈ positions → t < length ts →
                     rank_col tb ∈ ranks ∧ is_Some (k tb !! t) ∧
                     entry arr t (rank_col tb) = k tb !! t) →
            paintable g ts ranks arr ∧
            ∀ t y x label,
              pixel g t y x = Some label →
              (∀ tb, tb ∈ positions → label = Z.of_nat (rank_col tb) →
                     is_Some (k tb !! t) ∧
                     pixel (paint (Fin 0) arr ranks g (length ts)) t y x
                     = k tb !! t) ∧
              ((∀ r, r ∈ ranks → label ≠ Z.of_nat r) →
               pixel (paint (Fin 0) arr ranks g (length ts)) t y x = Some (Fin 0)))
    as Hpaint.
  { intros arr k [[Hrows Hcols] Hentry].
    assert (valid_input g ts ranks arr) as Hv by by split.
    split; [by apply valid_input_paintable|].
    intros t y x label Hpix.
    assert (t < length ts) as Ht.
    { rewrite <- Hlen. unfold pixel in Hpix.
      destruct (g !! t) eqn:Hgt; [|done]. by eapply lookup_lt_Some. }
    split.
    - intros tb Htb ->.
      destruct (Hentry tb t Htb Ht) as (Hr & Hsome & He).
      split; [done|]. rewrite <- He.
      eapply (pixel_paint_last (Fin 0)); [done..|].
      rewrite Hseq. apply last_index_seq.
      rewrite Hseq in Hr. apply elem_of_seq in Hr. lia.
    - intros Hno. by eapply pixel_paint_absent. }
  unfold recognised in Hprop. apply elem_of_app in Hprop as [H2|H1].
  - rewrite (finish_2D prop c0 c1 H2) in Hload, Hser. simpl in Hser.
    apply Forall2_cons_inv_l in Hser as (k0 & ks & Hk0 & Hser & Heq).
    apply Forall2_cons_inv_l in Hser as (k1 & ks' & Hk1 & Hser & Heq').
    apply Forall2_nil_inv_l in Hser. subst.
    destruct (Hpaint _ _ Hk0) as [Hp0 Hpix0].
    destruct (Hpaint _ _ Hk1) as [Hp1 Hpix1].
    destruct (load_fields_run_2D input_dir prop h c0 c1 H2 Hload Hp0 Hp1)
      as (l0 & l1 & h' & Hrun & _ & _ & _ & _ & Hl0 & Hl1).
    exists (FPair l0 l1), h'. split; [done|]. rewrite Heq. simpl.
    repeat constructor; eexists; eauto.
  - destruct (finish_1D prop c0 c1 H1) as [Hnot [arr Harr]].
    rewrite Harr in Hload, Hser. simpl in Hser.
    apply Forall2_cons_inv_l in Hser as (k0 & ks & Hk0 & Hser & Heq).
    apply Forall2_nil_inv_l in Hser. subst.
    destruct (Hpaint _ _ Hk0) as [Hp0 Hpix0].
    destruct (load_fields_run_1D input_dir prop h arr Hnot H1 Hload Hp0)
      as (l & h' & Hrun & _ & _ & Hl).
    exists (FArr l), h'. split; [done|]. rewrite Heq. simpl.
    repeat constructor; eexists; eauto.
Qed.
End LoadFieldsProperties.

(** ** Edge behaviour of [get_field] *)

Section PainterEdges.
Context {V : Type} (zero : V).
Implicit Types (h : heap V) (g : list (list (list Z))) (gt : list (list Z)).
Implicit Types (f : list (list (list V))) (ft : list (list V)).
Implicit Types (av : list (list V)) (row ts : list V) (rs : list nat).

Lemma lookup_paint_times_after av rs g t :
  ∀ n indt f, indt + n ≤ t → paint_times zero av rs g indt n f !! t = f !! t.
Proof.
  induction n as [|n IH]; intros indt f Hle; simpl; [done|].
  rewrite IH by lia. apply list_lookup_insert_ne. lia.
Qed.

(** X1.  [get_field] returns exactly on the inputs where there is no rank
    or every timestep of the axis has a snapshot of the rank field and a
    row of [a] with an entry for every position of the rank list; on all
    other inputs it raises an index error. *)
Theorem get_field_domain env a h g ts rs av :
  holds h env a g ts rs av →
  (paintable g ts rs av → ∃ l, fst (get_field zero env a h) = Ok l) ∧
  (¬ paintable g ts rs av →
   fst (get_field zero env a h) = Raise IndexError).
Proof.
  intros Hh. pose proof (get_field_total zero env a h g ts rs av Hh) as Ht.
  destruct (decide (paintable g ts rs av)) as [Hp|Hnp];
    (split; [intros Hp'|intros Hnp']); try done.
  rewrite Ht. eauto.
Qed.

(** X2.  With an empty rank list the call returns a field of zeros of the
    shape of the rank field, whatever the scalar array and the timestep
    axis are: [a] is never read. *)
Theorem get_field_no_rank env a h g ts av :
  holds h env a g ts [] av →
  ∃ l h',
    get_field zero env a h = (Ok l, h') ∧
    h' !! l = Some (Arr3 (zeros3 zero (shape3 g))).
Proof.
  intros Hh. pose proof (get_field_total zero env a h g ts [] av Hh) as Ht.
  destruct (decide (paintable g ts [] av)) as [_|Hnp];
    [|exfalso; apply Hnp; by left].
  eexists _, _. split; [exact Ht|].
  rewrite lookup_insert_eq. unfold paint. by rewrite paint_times_no_rank.
Qed.

(** X3.  When the timestep axis is shorter than the rank field, the call
    still returns a field for every snapshot, and the fields of the
    snapshots beyond the axis are all zero. *)
Theorem get_field_short_axis env a h g ts rs av :
  holds h env a g ts rs av → paintable g ts rs av →
  ∃ l h' out,
    get_field zero env a h = (Ok l, h') ∧ h' !! l = Some (Arr3 out) ∧
    length out = length g ∧
    ∀ t gt, length ts ≤ t → g !! t = Some gt →
            out !! t = Some (zeros2 zero (shape2 gt)).
Proof.
  intros Hh Hp. pose proof (get_field_total zero env a h g ts rs av Hh) as Ht.
  rewrite decide_True in Ht by done.
  eexists _, _, _. split; [exact Ht|].
  split; [by rewrite lookup_insert_eq|]. split.
  - apply (length_shape3 _ g), shape3_paint.
  - intros t gt Hle Hgt. unfold paint.
    rewrite lookup_paint_times_after by lia.
    unfold zeros3, shape3. by rewrite !list_lookup_fmap, Hgt.
Qed.

(** Painting commutes with an operation on scalars that maps zeros to
    zero. *)
Lemma pixel_value_zip (op : V → V → V) ra rb rs label :
  ∀ indr oa ob,
    indr + length rs ≤ length ra → indr + length rs ≤ length rb →
    pixel_value zero (zip_with op ra rb) indr rs label (op oa ob)
    = op (pixel_value zero ra indr rs label oa)
        (pixel_value zero rb indr rs label ob).
Proof.
  induction rs as [|rank rs IH]; intros indr oa ob Ha Hb; simpl in *; [done|].
  destruct (lookup_lt_is_Some_2 ra indr) as [u Hu]; [lia|].
  destruct (lookup_lt_is_Some_2 rb indr) as [v Hv]; [lia|].
  rewrite lookup_zip_with, Hu, Hv. simpl.
  case_bool_decide; apply IH; lia.
Qed.

Lemma pixel_paint_zip (op : V → V → V) g ts rs av bv t y x label :
  op zero zero = zero →
  valid_input g ts rs av → valid_input g ts rs bv →
  pixel g t y x = Some label →
  ∃ u v,
    pixel (paint zero av rs g (length ts)) t y x = Some u ∧
    pixel (paint zero bv rs g (length ts)) t y x = Some v ∧
    pixel (paint zero (zip_with (zip_with op) av bv) rs g (length ts)) t y x
    = Some (op u v).
Proof.
  intros Hop Hva Hvb Hpix.
  assert (valid_input g ts rs (zip_with (zip_with op) av bv)) as Hvc.
  { destruct Hva as [Hs Hra Hca], Hvb as [_ Hrb Hcb]. split; [done| |].
    - rewrite length_zip_with. lia.
    - apply Forall_forall. intros row Hrow.
      apply list_elem_of_lookup in Hrow as [i Hi].
      rewrite lookup_zip_with in Hi.
      destruct (av !! i) as [ra|] eqn:Hia; [|done].
      destruct (bv !! i) as [rb|] eqn:Hib; simplify_eq/=.
      rewrite length_zip_with.
      rewrite Forall_forall in Hca, Hcb.
      rewrite (Hca ra), (Hcb rb); [lia|..]; apply list_elem_of_lookup; eauto. }
  destruct (pixel_paint zero g ts rs av t y x _ Hva Hpix)
    as (ra & Hra & Hla & Houta).
  destruct (pixel_paint zero g ts rs bv t y x _ Hvb Hpix)
    as (rb & Hrb & Hlb & Houtb).
  destruct (pixel_paint zero g ts rs _ t y x _ Hvc Hpix)
    as (rc & Hrc & Hlc & Houtc).
  rewrite lookup_zip_with, Hra, Hrb in Hrc. simplify_eq/=.
  eexists _, _. split; [done|]. split; [done|].
  rewrite Houtc. f_equal.
  rewrite <- (pixel_value_zip op ra rb rs label 0 zero zero) by (simpl; lia).
  by rewrite Hop.
Qed.
End PainterEdges.

(** ** Effects and errors of [load_fields] *)

Section LoadFieldsEffects.
Context {V : Type}.

Lemma extends_ret {A} (x : A) : extends (V := V) (ret x).
Proof. by intros h. Qed.

Lemma extends_raise {A} e : extends (V := V) (A := A) (raise e).
Proof. by intros h. Qed.

Lemma extends_lift {A} (r : result A) : extends (V := V) (lift r).
Proof. by intros h. Qed.

Lemma extends_alloc (x : ndarray V) : extends (alloc x).
Proof. intros h. apply insert_fresh_subseteq. Qed.

Lemma extends_bind {A B} (m : M V A) (k : A → M V B) :
  extends m → (∀ x, extends (k x)) → extends (bind m k).
Proof.
  intros Hm Hk h. unfold bind. specialize (Hm h).
  destruct (m h) as [[x|e] h1]; simpl in *; [|done].
  etrans; [exact Hm|]. apply Hk.
Qed.

Lemma extends_get_field (zero : V) env a : extends (get_field zero env a).
Proof.
  intros h. rewrite <- (get_field_delete zero env a h) at 1.
  apply delete_subseteq.
Qed.
End LoadFieldsEffects.

(** X5.  Whatever the directory and the property name, and whether it
    returns or raises, [load_fields] changes and removes no object of the
    store it is called in. *)
Theorem load_fields_keeps_store input_dir prop (h : heap float) :
  h ⊆ snd (load_fields input_dir prop h).
Proof.
  revert h. change (extends (load_fields input_dir prop)).
  unfold load_fields.
  destruct input_dir as [[positions rs] [g ts]]. simpl.
  apply extends_bind; [apply extends_alloc|]. intros l1.
  apply extends_bind; [apply extends_alloc|]. intros l2.
  apply extends_bind; [apply extends_alloc|]. intros l3.
  destruct (bool_decide (prop ∈ prop2D)).
  { apply extends_bind; [apply extends_lift|]. intros [|arr|c0 c1];
      try apply extends_raise.
    apply extends_bind; [apply extends_alloc|]. intros l4.
    apply extends_bind; [apply extends_alloc|]. intros l5.
    apply extends_bind; [apply extends_get_field|]. intros l6.
    apply extends_bind; [apply extends_get_field|]. intros l7.
    apply extends_ret. }
  destruct (bool_decide (prop ∈ prop1D)); [|apply extends_ret].
  apply extends_bind; [apply extends_lift|]. intros [|arr|c0 c1];
    try apply extends_raise.
  apply extends_bind; [apply extends_alloc|]. intros l4.
  apply extends_bind; [apply extends_get_field|]. intros l5.
  apply extends_ret.
Qed.

(** X6.  For a recognised name, an exception raised by [load_property]
    is the exception [load_fields] raises: no field is painted. *)
Theorem load_fields_propagates input_dir prop (h : heap float) e :
  prop ∈ recognised → load_property input_dir prop = Raise e →
  fst (load_fields input_dir prop h) = Raise e.
Proof.
  intros Hprop Hload. unfold load_fields.
  destruct input_dir as [[positions rs] [g ts]]. simpl.
  unfold bind at 1. unfold alloc at 1.
  unfold bind at 1. unfold alloc at 1.
  unfold bind at 1. unfold alloc at 1.
  unfold recognised in Hprop. apply elem_of_app in Hprop as [H2|H1].
  - rewrite bool_decide_eq_true_2 by done.
    apply bind_fail. unfold lift. by rewrite Hload.
  - destruct (bool_decide (prop ∈ prop2D));
      [|rewrite bool_decide_eq_true_2 by done];
      apply bind_fail; unfold lift; by rewrite Hload.
Qed.

(** X7.  For a directory without cell files (no table, no rank), every
    recognised name yields fields of zeros of the shape of the rank
    field, whatever the timestep axis is. *)
Theorem load_fields_no_cell input_dir prop (h : heap float) :
  load_pos input_dir = ([], []) → prop ∈ recognised →
  ∃ fs h',
    load_fields input_dir prop h = (Ok fs, h') ∧ fs ≠ FNone ∧
    ∀ l, l ∈ fields_of fs →
         h' !! l = Some (Arr3 (zeros3 (Fin 0)
                                 (shape3 (fst (load_rankfield input_dir))))).
Proof.
  intros Hpos Hprop.
  assert (∃ c0 c1, load_property input_dir prop = Ok (finish prop c0 c1))
    as (c0 & c1 & Hload).
  { rewrite load_property_recognised by done. rewrite Hpos. simpl.
    unfold load_columns. simpl. eauto. }
  assert (∀ arr, paintable (fst (load_rankfield input_dir))
                   (snd (load_rankfield input_dir))
                   (snd (load_pos input_dir)) arr) as Hp.
  { intros arr. left. by rewrite Hpos. }
  assert (∀ arr, paint (Fin 0) arr (snd (load_pos input_dir))
                   (fst (load_rankfield input_dir))
                   (length (snd (load_rankfield input_dir)))
                 = zeros3 (Fin 0) (shape3 (fst (load_rankfield input_dir))))
    as Hz.
  { intros arr. rewrite Hpos. unfold paint. simpl.
    by rewrite paint_times_no_rank. }
  unfold recognised in Hprop. apply elem_of_app in Hprop as [H2|H1].
  - rewrite (finish_2D prop c0 c1 H2) in Hload.
    destruct (load_fields_run_2D input_dir prop h c0 c1 H2 Hload (Hp _) (Hp _))
      as (l0 & l1 & h' & Hrun & _ & _ & _ & _ & Hl0 & Hl1).
    exists (FPair l0 l1), h'. split; [done|]. split; [done|].
    intros l Hl. simpl in Hl. rewrite !elem_of_cons, elem_of_nil in Hl.
    rewrite Hz in Hl0, Hl1. by destruct Hl as [-> | [-> | []]].
  - destruct (finish_1D prop c0 c1 H1) as [Hnot [arr Harr]].
    rewrite Harr in Hload.
    destruct (load_fields_run_1D input_dir prop h arr Hnot H1 Hload (Hp _))
      as (l & h' & Hrun & _ & _ & Hl).
    exists (FArr l), h'. split; [done|]. split; [done|].
    intros l' Hl'. simpl in Hl'. rewrite !elem_of_cons, elem_of_nil in Hl'.
    rewrite Hz in Hl. by destruct Hl' as [-> | []].
Qed.

(** X8.  The field [load_fields] returns for [velocity angle] is, at
    every pixel of the grid, [atan2] of the two fields it returns for
    [velocity], second component first; also where no cell is, since
    [atan2(0, 0)] is zero. *)
Theorem velocity_angle_of_velocity_fields input_dir (h1 h2 : heap float) :
  well_formed input_dir →
  Forall (λ r, r < length (snd (load_pos input_dir)))
    (snd (load_pos input_dir)) →
  length (fst (load_rankfield input_dir))
  = length (snd (load_rankfield input_dir)) →
  ∃ l0 l1 l h1' h2' f0 f1 fa,
    load_fields input_dir "velocity" h1 = (Ok (FPair l0 l1), h1') ∧
    load_fields input_dir "velocity angle" h2 = (Ok (FArr l), h2') ∧
    h1' !! l0 = Some (Arr3 f0) ∧ h1' !! l1 = Some (Arr3 f1) ∧
    h2' !! l = Some (Arr3 fa) ∧
    ∀ t y x label,
      pixel (fst (load_rankfield input_dir)) t y x = Some label →
      ∃ u0 u1,
        pixel f0 t y x = Some u0 ∧ pixel f1 t y x = Some u1 ∧
        pixel fa t y x = Some (arctan2 u1 u0).
Proof.
  intros Hwf Hbound Hlen.
  destruct (load_property_returns input_dir "velocity" Hwf)
    as (c0 & c1 & Hfill & Hload);
    [apply elem_of_app; left; by left|done|].
  destruct (load_property_returns input_dir "velocity angle" Hwf)
    as (c0' & c1' & Hfill' & Hload');
    [apply elem_of_app; right; by left|done|].
  assert (columns_of "velocity angle" = columns_of "velocity") as Hcols by done.
  rewrite Hcols, Hfill in Hfill'. simplify_eq.
  change (finish "velocity" c0' c1') with (VPair c0' c1') in Hload.
  change (finish "velocity angle" c0' c1')
    with (VArr (ufunc2 arctan2 c1' c0')) in Hload'.
  apply load_columns_spec in Hfill as ([Hr0 Hc0] & [Hr1 Hc1] & _).
  set (g := fst (load_rankfield input_dir)) in *.
  set (ts := snd (load_rankfield input_dir)) in *.
  set (rs := snd (load_pos input_dir)) in *.
  assert (valid_input g ts rs c0') as Hv0 by by split.
  assert (valid_input g ts rs c1') as Hv1 by by split.
  assert (valid_input g ts rs (ufunc2 arctan2 c1' c0')) as Hva.
  { destruct (matrix_ufunc2 arctan2 (length ts) (length rs) c1' c0')
      as [Hra Hca]; by split. }
  destruct (load_fields_run_2D input_dir "velocity" h1 c0' c1')
    as (l0 & l1 & h1' & Hrun & _ & _ & _ & _ & Hl0 & Hl1);
    [by left|done|by apply valid_input_paintable..|].
  destruct (load_fields_run_1D input_dir "velocity angle" h2
              (ufunc2 arctan2 c1' c0'))
    as (l & h2' & Hrun' & _ & _ & Hl);
    [by intros [?|[?|[?|[]%elem_of_nil]%elem_of_cons]%elem_of_cons]%elem_of_cons
    |by left|done|by apply valid_input_paintable|].
  eexists l0, l1, l, h1', h2', _, _, _.
  split; [done|]. split; [done|]. split; [done|]. split; [done|].
  split; [done|].
  intros t y x label Hpix.
  destruct (pixel_paint_zip (Fin 0) arctan2 g ts rs c1' c0' t y x label)
    as (u1 & u0 & Hu1 & Hu0 & Hua); try done.
  { rewrite arctan2_Fin. f_equal. unfold atan2.
    destruct (Rlt_dec 0 0); [lra|]. done. }
  eauto.
Qed.

(** ** Series of the wrong length *)

Lemma setcol_fits N n arr rank series :
  matrix N n arr → rank < n →
  if decide (fits N series)
  then ∃ arr', setcol n arr rank series = Ok arr'
  else setcol n arr rank series = Raise ValueError.
Proof.
  intros [Hlen _] Hlt. unfold setcol.
  destruct (decide (rank < n)) as [_|?]; [|done]. rewrite Hlen.
  destruct (decide (fits N series)) as [Hf|Hnf]; unfold fits in *.
  - destruct (decide (length series = N)); [eauto|].
    destruct series as [|x [|]]; simpl in *; [lia|eauto|lia].
  - destruct (decide (length series = N)) as [?|_]; [tauto|].
    destruct series as [|x [|]]; simpl in *; [done| |done].
    exfalso. apply Hnf. by right.
Qed.

Lemma setcol_written N n arr rank series arr' t :
  setcol n arr rank series = Ok arr' → matrix N n arr → t < N →
  entry arr' t rank = written N series t.
Proof.
  intros Hset [Hlen Hrows] Ht. unfold written, entry.
  destruct (lookup_lt_is_Some_2 arr t) as [row Hrow]; [lia|].
  assert (length row = n) as Hn.
  { rewrite Forall_forall in Hrows. apply Hrows.
    apply list_elem_of_lookup. eauto. }
  apply setcol_inv in Hset as [Hlt [[Hs ->]|[y [-> ->]]]].
  - rewrite decide_True by lia.
    destruct (lookup_lt_is_Some_2 series t) as [x Hx]; [lia|].
    rewrite lookup_zip_with, Hrow, Hx. simpl.
    apply list_lookup_insert_eq. lia.
  - rewrite list_lookup_fmap, Hrow. simpl.
    rewrite list_lookup_insert_eq by lia.
    case_decide; [|done]. destruct t; simplify_eq/=; [done|lia].
Qed.

Lemma fill_column_written positions N n k rs r tb t :
  r ∈ rs → positions !! r = Some tb → t < N →
  ∀ c c', fill_column positions n k rs c = Ok c' → matrix N n c →
          entry c' t r = written N (k tb) t.
Proof.
  intros Hr Htb Ht.
  induction rs as [|rank rs IH]; intros c c' Hfill Hc; simpl in *.
  - by apply elem_of_nil in Hr.
  - apply rbind_ok in Hfill as (tb0 & Htb0 & Hfill).
    apply rbind_ok in Hfill as (c1 & Hc1 & Hfill).
    apply getitem_ok in Htb0.
    destruct (decide (r ∈ rs)) as [Hin|Hout].
    + eapply IH; [done|done|by eapply setcol_matrix].
    + apply elem_of_cons in Hr as [-> | Hr]; [|done].
      simplify_eq.
      rewrite (fill_column_other positions n k rs t rank Hout c1 c') by done.
      by eapply setcol_written.
Qed.

Lemma fill_columns_bad_length positions N n k0 k1 rs :
  length positions = n → Forall (λ r, r < n) rs →
  (∃ r tb, r ∈ rs ∧ positions !! r = Some tb ∧
           ¬ (fits N (k0 tb) ∧ fits N (k1 tb))) →
  ∀ c0 c1, matrix N n c0 → matrix N n c1 →
           fill_columns positions n k0 k1 rs (c0, c1) = Raise ValueError.
Proof.
  intros Hpos Hbound Hbad.
  induction rs as [|rank rs IH]; intros c0 c1 Hc0 Hc1.
  { destruct Hbad as (r & tb & Hr & _). by apply elem_of_nil in Hr. }
  apply Forall_cons in Hbound as [Hlt Hbound].
  destruct (lookup_lt_is_Some_2 positions rank) as [tb Htb]; [lia|].
  cbn [fill_columns]. unfold getitem. rewrite Htb. simpl.
  pose proof (setcol_fits N n c0 rank (k0 tb) Hc0 Hlt) as H0.
  destruct (decide (fits N (k0 tb))) as [Hf0|Hnf0]; [|by rewrite H0].
  destruct H0 as [x0 Hx0]. rewrite Hx0. simpl.
  pose proof (setcol_fits N n c1 rank (k1 tb) Hc1 Hlt) as H1.
  destruct (decide (fits N (k1 tb))) as [Hf1|Hnf1]; [|by rewrite H1].
  destruct H1 as [x1 Hx1]. rewrite Hx1. simpl.
  apply IH; [done| |by eapply setcol_matrix..].
  destruct Hbad as (r & tb' & Hr & Htb' & Hnot).
  exists r, tb'. split; [|done].
  apply elem_of_cons in Hr as [-> | Hr]; [|done].
  simplify_eq. tauto.
Qed.

(** X9.  With one table per rank and every rank below the number of
    ranks, [load_property] raises a value error for a recognised name as
    soon as the table of a loaded rank has, in one of the two columns the
    name reads, neither one value per timestep nor a single value. *)
Theorem load_property_bad_length input_dir prop r tb :
  prop ∈ recognised →
  length (fst (load_pos input_dir)) = length (snd (load_pos input_dir)) →
  Forall (λ r, r < length (snd (load_pos input_dir)))
    (snd (load_pos input_dir)) →
  r ∈ snd (load_pos input_dir) →
  fst (load_pos input_dir) !! r = Some tb →
  ¬ (fits (length (snd (load_rankfield input_dir)))
       (fst (columns_of prop) tb) ∧
     fits (length (snd (load_rankfield input_dir)))
       (snd (columns_of prop) tb)) →
  load_property input_dir prop = Raise ValueError.
Proof.
  intros Hprop Hpos Hbound Hr Htb Hbad.
  rewrite load_property_recognised by done. unfold load_columns.
  rewrite (fill_columns_bad_length _ (length (snd (load_rankfield input_dir))));
    [done|done|done|by eauto|apply matrix_zeros2..].
Qed.

(** X10.  A table with a single row is broadcast: when [load_property]
    returns the two arrays of a two-component name, the column of a
    loaded rank whose table has one value in a column the name reads
    holds that value at every timestep. *)
Theorem load_property_broadcasts input_dir prop c0 c1 r tb :
  prop ∈ prop2D →
  load_property input_dir prop = Ok (VPair c0 c1) →
  r ∈ snd (load_pos input_dir) →
  fst (load_pos input_dir) !! r = Some tb →
  (∀ x t, fst (columns_of prop) tb = [x] →
          t < length (snd (load_rankfield input_dir)) →
          entry c0 t r = Some x) ∧
  (∀ x t, snd (columns_of prop) tb = [x] →
          t < length (snd (load_rankfield input_dir)) →
          entry c1 t r = Some x).
Proof.
  intros Hprop Hload Hr Htb.
  rewrite load_property_recognised in Hload
    by (apply elem_of_app; by left).
  apply rbind_ok in Hload as ([d0 d1] & Hfill & Hv). simpl in Hv.
  rewrite finish_2D in Hv by done. simplify_eq.
  unfold load_columns in Hfill.
  apply fill_columns_split in Hfill as [H0 H1].
  pose proof (matrix_zeros2 (Fin 0) (length (snd (load_rankfield input_dir)))
                (length (snd (load_pos input_dir)))) as Hz.
  split; intros x t Hx Ht.
  - rewrite (fill_column_written _ _ _ _ _ r tb t Hr Htb Ht _ _ H0 Hz).
    unfold written. rewrite Hx. case_decide as Hd; [|done].
    simpl in Hd. destruct t; [done|lia].
  - rewrite (fill_column_written _ _ _ _ _ r tb t Hr Htb Ht _ _ H1 Hz).
    unfold written. rewrite Hx. case_decide as Hd; [|done].
    simpl in Hd. destruct t; [done|lia].
Qed.

(** ** More on the two angles *)

Section MoreAngles.
Local Open Scope R_scope.








Lemma sqrt_sum_squares (x y : R) :
  x ≠ 0 → sqrt (x * x + y * y) = Rabs x * sqrt (1 + (y / x)²).
Proof.
  intros Hx.
  replace (x * x + y * y) with (x² * (1 + (y / x)²)).
  - rewrite sqrt_mult.
    + by rewrite sqrt_Rsqr_abs.
    + apply Rle_0_sqr.
    + pose proof (Rle_0_sqr (y / x)). lra.
  - unfold Rsqr. by field.
Qed.

(** [atan2 y x] is the polar angle of the point [(x, y)]. *)
Lemma atan2_polar (y x : R) :
  x = sqrt (x * x + y * y) * cos (atan2 y x) ∧
  y = sqrt (x * x + y * y) * sin (atan2 y x).
Proof.
  unfold atan2.
  assert (∀ u, 0 < sqrt (1 + u²)) as Hs.
  { intros u. apply sqrt_lt_R0. pose proof (Rle_0_sqr u). lra. }
  destruct (Rlt_dec 0 x) as [Hx|Hx].
  { rewrite sqrt_sum_squares by lra. rewrite Rabs_right by lra.
    rewrite cos_atan, sin_atan. pose proof (Hs (y / x)).
    split; field; lra. }
  destruct (Rlt_dec x 0) as [Hx'|Hx'].
  - rewrite sqrt_sum_squares by lra. rewrite Rabs_left by lra.
    pose proof (Hs (y / x)).
    destruct (Rle_dec 0 y).
    + rewrite neg_cos, neg_sin, cos_atan, sin_atan. split; field; lra.
    + rewrite cos_minus, sin_minus, cos_PI, sin_PI, cos_atan, sin_atan.
      split; field; lra.
  - assert (x = 0) as -> by lra.
    replace (0 * 0 + y * y) with (y²) by (unfold Rsqr; lra).
    rewrite sqrt_Rsqr_abs.
    destruct (Rlt_dec 0 y).
    { rewrite cos_PI2, sin_PI2, Rabs_right by lra. lra. }
    destruct (Rlt_dec y 0).
    { rewrite cos_neg, sin_neg, cos_PI2, sin_PI2, Rabs_left by lra. lra. }
    assert (y = 0) as -> by lra. rewrite Rabs_R0. lra.
Qed.

(** X12.  The entry of the [velocity angle] array for a loaded rank with
    finite velocity components is the direction of its velocity: with
    [θ] the entry and [|v|] the norm of [(v0, v1)], [v0 = |v| cos θ] and
    [v1 = |v| sin θ].  (Rounding is not modelled.) *)
Theorem velocity_angle_is_direction input_dir arr r tb t v0 v1 :
  load_property input_dir "velocity angle" = Ok (VArr arr) →
  r ∈ snd (load_pos input_dir) →
  fst (load_pos input_dir) !! r = Some tb →
  full_table (length (snd (load_rankfield input_dir))) tb →
  v0_col tb !! t = Some (Fin v0) → v1_col tb !! t = Some (Fin v1) →
  ∃ θ, entry arr t r = Some (Fin θ) ∧
       v0 = sqrt (v0 * v0 + v1 * v1) * cos θ ∧
       v1 = sqrt (v0 * v0 + v1 * v1) * sin θ.
Proof.
  intros Hload Hr Htb (Hl0 & Hl1 & _) Hv0 Hv1.
  rewrite load_property_recognised in Hload
    by (apply elem_of_app; right; by left).
  apply rbind_ok in Hload as ([c0 c1] & Hfill & Hv). simpl in Hv.
  change (finish "velocity angle" c0 c1)
    with (VArr (ufunc2 arctan2 c1 c0)) in Hv.
  simplify_eq.
  apply load_columns_spec in Hfill as (_ & _ & _ & Hentry).
  assert ((t < length (snd (load_rankfield input_dir)))%nat) as Ht.
  { rewrite <- Hl0. by eapply lookup_lt_Some. }
  destruct (Hentry r tb t Hr Htb Ht) as [He0 He1]. simpl in *.
  exists (atan2 v1 v0). split.
  - rewrite entry_ufunc2, (He0 Hl0), (He1 Hl1), Hv0, Hv1.
    by rewrite arctan2_Fin.
  - apply atan2_polar.
Qed.
End MoreAngles.

(** ** [load_pos] *)

Section LoaderProofs.
Import Loader.

(** *** The rank in a file name *)

Lemma append_cons c (s t : string) : String c s +:+ t = String c (s +:+ t).
Proof. reflexivity. Qed.

Lemma append_nil_l (s : string) : "" +:+ s = s.
Proof. reflexivity. Qed.

Lemma append_nil_r (s : string) : s +:+ "" = s.
Proof.
  induction s as [|c s IH]; [done|]. by rewrite append_cons, IH.
Qed.

Lemma append_snoc c (s t : string) :
  (s +:+ String c "") +:+ t = s +:+ String c t.
Proof.
  induction s as [|d s IH]; [done|]. by rewrite !append_cons, IH.
Qed.

Lemma findall_from_digits ds :
  all_digits ds → ∀ cur rest,
    findall_from cur (ds +:+ rest) = findall_from (cur +:+ ds) rest.
Proof.
  unfold all_digits.
  induction ds as [|c ds IH]; intros Hds cur rest.
  - by rewrite append_nil_l, append_nil_r.
  - simpl in Hds. apply Forall_cons in Hds as [Hc Hds].
    rewrite append_cons. cbn [findall_from]. rewrite Hc, IH by done.
    by rewrite append_snoc.
Qed.

Lemma findall_from_no_digit suf :
  no_digit suf → ∀ cur,
    findall_from cur suf = if decide (cur = "") then [] else [cur].
Proof.
  unfold no_digit.
  induction suf as [|c suf IH]; intros Hsuf cur; simpl in *; [done|].
  apply Forall_cons in Hsuf as [Hc Hsuf]. rewrite Hc.
  case_decide; rewrite IH by done; by rewrite decide_True.
Qed.

Lemma last_findall_prefix s run :
  (∀ cur, last (findall_from cur s) = Some run) →
  ∀ pre cur, last (findall_from cur (pre +:+ s)) = Some run.
Proof.
  intros Hs. induction pre as [|c pre IH]; intros cur; [done|].
  rewrite append_cons. cbn [findall_from].
  destruct (is_digit c); [done|]. case_decide; [done|].
  by rewrite last_cons, IH.
Qed.

Lemma last_findall_run c digits suf :
  is_digit c = false → all_digits digits → digits ≠ "" → no_digit suf →
  ∀ cur, last (findall_from cur (String c (digits +:+ suf))) = Some digits.
Proof.
  intros Hc Hds Hne Hsuf cur. cbn [findall_from]. rewrite Hc.
  assert (last (findall_from "" (digits +:+ suf)) = Some digits) as Hlast.
  { rewrite findall_from_digits by done. rewrite append_nil_l.
    rewrite findall_from_no_digit by done. by rewrite decide_False. }
  case_decide; [|rewrite last_cons]; by rewrite Hlast.
Qed.

(** X13.  The rank of the file [neo_positions_p<digits>.csv] of a
    directory is the number its digits spell, leading zeros dropped,
    whatever the name of the directory, digits included. *)
Theorem rank_of_path input_dir digits :
  all_digits digits → digits ≠ "" →
  rank_of (path_of input_dir digits) = Ok (int digits).
Proof.
  intros Hds Hne. unfold rank_of, path_of, findall_digits.
  change ("/positions/neo_positions_p" +:+ digits +:+ ".csv")
    with ("/positions/neo_positions_" +:+ "p" +:+ digits +:+ ".csv").
  rewrite (last_findall_prefix _ digits); [done|].
  intros cur. apply last_findall_prefix. clear cur.
  rewrite append_cons, append_nil_l.
  apply last_findall_run; [done..|]. by repeat constructor.
Qed.

(** X14.  The rank of a file name is the number spelt by its last run of
    digits: digits that follow a character that is no digit and are
    followed by no digit. *)
Theorem rank_of_last_run pre c digits suf :
  is_digit c = false → all_digits digits → digits ≠ "" → no_digit suf →
  rank_of (pre +:+ String c (digits +:+ suf)) = Ok (int digits).
Proof.
  intros Hc Hds Hne Hsuf. unfold rank_of, findall_digits.
  rewrite (last_findall_prefix _ digits); [done|].
  by apply last_findall_run.
Qed.



(** *** The loop over the files *)

Lemma rank_of_raises filename e : rank_of filename = Raise e → e = IndexError.
Proof. unfold rank_of. destruct (last _); by intros; simplify_eq. Qed.

Lemma rank_of_is_Ok filename :
  findall_digits filename ≠ [] → ∃ k, rank_of filename = Ok k.
Proof.
  intros Hne. apply last_is_Some in Hne as [run Hrun].
  unfold rank_of. rewrite Hrun. eauto.
Qed.

Lemma rank_of_Ok_inv filename k :
  rank_of filename = Ok k → findall_digits filename ≠ [].
Proof.
  unfold rank_of. destruct (last _) eqn:Hlast; [|done].
  intros _. apply last_is_Some. eauto.
Qed.

Lemma read_files_ok files :
  ∀ parsed positions_raw ranks,
    Forall2 (λ ft k, rank_of ft.1 = Ok k) files parsed →
    read_files files positions_raw ranks
    = Ok (positions_raw ++ files.*2, ranks ++ parsed).
Proof.
  induction files as [|[filename tmp] files IH];
    intros parsed positions_raw ranks Hparsed.
  - apply Forall2_nil_inv_l in Hparsed as ->. simpl. by rewrite !app_nil_r.
  - apply Forall2_cons_inv_l in Hparsed as (k & parsed' & Hk & Hparsed & ->).
    simpl in *. rewrite Hk. simpl. rewrite (IH parsed') by done.
    by rewrite <- !app_assoc.
Qed.

Lemma read_files_inv files :
  ∀ positions_raw ranks positions_raw' ranks',
    read_files files positions_raw ranks = Ok (positions_raw', ranks') →
    ∃ parsed,
      Forall2 (λ ft k, rank_of ft.1 = Ok k) files parsed ∧
      positions_raw' = positions_raw ++ files.*2 ∧ ranks' = ranks ++ parsed.
Proof.
  induction files as [|[filename tmp] files IH];
    intros positions_raw ranks positions_raw' ranks' Hread; simpl in *.
  - simplify_eq. exists []. by rewrite !app_nil_r.
  - apply rbind_ok in Hread as (k & Hk & Hread).
    apply IH in Hread as (parsed & Hparsed & -> & ->).
    exists (k :: parsed). rewrite <- !app_assoc. split; [|done].
    by constructor.
Qed.

Lemma read_files_fail files :
  ¬ Forall (λ ft, findall_digits ft.1 ≠ []) files →
  ∀ positions_raw ranks,
    read_files files positions_raw ranks = Raise IndexError.
Proof.
  induction files as [|[filename tmp] files IH];
    intros Hbad positions_raw ranks; simpl in *.
  - exfalso. apply Hbad. constructor.
  - destruct (rank_of filename) as [k|e] eqn:Hk; simpl.
    + apply IH. intros Hall. apply Hbad. constructor; [|done].
      simpl. by eapply rank_of_Ok_inv.
    + by apply rank_of_raises in Hk as ->.
Qed.

(** *** Sorting *)

Section SortBy.
Context {A : Type} (key : A → nat).

Lemma insert_by_perm x (l : list A) : insert_by key x l ≡ₚ x :: l.
Proof.
  induction l as [|y l IH]; simpl; [done|].
  case_decide; [done|]. rewrite IH. apply Permutation_swap.
Qed.

Lemma sort_by_perm (l : list A) : sort_by key l ≡ₚ l.
Proof.
  induction l as [|x l IH]; simpl; [done|].
  by rewrite insert_by_perm, IH.
Qed.

Lemma insert_by_sorted x (l : list A) :
  StronglySorted (λ a b, key a ≤ key b) l →
  StronglySorted (λ a b, key a ≤ key b) (insert_by key x l).
Proof.
  induction l as [|y l IH]; intros Hl; simpl.
  - repeat constructor.
  - apply StronglySorted_inv in Hl as [Hl Hy].
    case_decide.
    + constructor; [by constructor|].
      constructor; [done|]. eapply Forall_impl; [done|]. simpl. lia.
    + constructor; [by apply IH|].
      rewrite insert_by_perm. constructor; [lia|done].
Qed.

Lemma sort_by_sorted (l : list A) :
  StronglySorted (λ a b, key a ≤ key b) (sort_by key l).
Proof.
  induction l as [|x l IH]; simpl; [constructor|]. by apply insert_by_sorted.
Qed.

Lemma insert_by_fmap {B} (f : B → A) x (l : list B) :
  f <$> insert_by (key ∘ f) x l = insert_by key (f x) (f <$> l).
Proof.
  induction l as [|y l IH]; [done|].
  cbn [insert_by fmap list_fmap compose].
  destruct (decide (key (f x) ≤ key (f y))); [done|].
  cbn [fmap list_fmap]. f_equal. apply IH.
Qed.

Lemma sort_by_fmap {B} (f : B → A) (l : list B) :
  f <$> sort_by (key ∘ f) l = sort_by key (f <$> l).
Proof.
  induction l as [|x l IH]; [done|].
  change (f <$> insert_by (key ∘ f) x (sort_by (key ∘ f) l)
          = insert_by key (f x) (sort_by key (f <$> l))).
  by rewrite <- IH, insert_by_fmap.
Qed.
End SortBy.

Lemma take_indices_argsort (ranks : list nat) :
  take_indices ranks (argsort ranks) = sort_by (λ r, r) ranks.
Proof.
  unfold take_indices, argsort.
  set (ps := zip (seq 0 (length ranks)) ranks).
  assert (Forall (λ p, ranks !! p.1 = Some p.2) (sort_by snd ps)) as Hps.
  { rewrite sort_by_perm. apply Forall_forall. intros [i r] Hp.
    apply list_elem_of_lookup in Hp as [j Hj]. unfold ps in Hj.
    apply lookup_zip_with_Some in Hj as (i' & r' & Heq & Hi & Hr).
    simplify_eq. apply lookup_seq in Hi as [-> _]. done. }
  rewrite <- list_fmap_compose.
  transitivity (snd <$> sort_by snd ps).
  - apply Forall_fmap_ext. eapply Forall_impl; [exact Hps|].
    intros [i r] Hp. simpl in *. by apply list_lookup_total_correct.
  - etrans; [exact (sort_by_fmap (λ r, r) snd ps)|]. f_equal.
    apply snd_zip. by rewrite length_seq.
Qed.

Lemma keys_of_nonempty l :
  Forall (λ tb, v0_col tb ≠ []) l → keys_of l = Ok (rank_col <$> l).
Proof.
  induction l as [|tb l IH]; intros Hl; simpl; [done|].
  apply Forall_cons in Hl as [Htb Hl]. rewrite IH by done.
  unfold first_rank. by destruct (v0_col tb).
Qed.

Lemma keys_of_inv l ks :
  keys_of l = Ok ks → ks = rank_col <$> l ∧ Forall (λ tb, v0_col tb ≠ []) l.
Proof.
  revert ks. induction l as [|tb l IH]; intros ks Hks; simpl in *.
  - by simplify_eq.
  - apply rbind_ok in Hks as (k & Hk & Hks).
    apply rbind_ok in Hks as (ks' & Hks' & Hks). simplify_eq.
    apply IH in Hks' as [-> Hl].
    unfold first_rank in Hk. destruct (v0_col tb) eqn:Hv; simplify_eq.
    split; [done|]. constructor; [by rewrite Hv|done].
Qed.

Lemma keys_of_fail l :
  ¬ Forall (λ tb, v0_col tb ≠ []) l → keys_of l = Raise IndexError.
Proof.
  induction l as [|tb l IH]; intros Hbad; simpl.
  - exfalso. apply Hbad. constructor.
  - unfold first_rank. destruct (v0_col tb) eqn:Hv; simpl; [done|].
    rewrite IH; [done|]. intros Hl. apply Hbad.
    constructor; [by rewrite Hv|done].
Qed.

Lemma insert_by_ext {A} (key key' : A → nat) x (l : list A) :
  key x = key' x → Forall (λ y, key y = key' y) l →
  insert_by key x l = insert_by key' x l.
Proof.
  intros Hx. induction l as [|y l IH]; intros Hl; [done|].
  apply Forall_cons in Hl as [Hy Hl]. cbn [insert_by]. rewrite Hx, Hy.
  destruct (decide (key' x ≤ key' y)); [done|]. f_equal. by apply IH.
Qed.

Lemma sort_by_ext {A} (key key' : A → nat) (l : list A) :
  Forall (λ x, key x = key' x) l → sort_by key l = sort_by key' l.
Proof.
  induction l as [|x l IH]; intros Hl; [done|].
  apply Forall_cons in Hl as [Hx Hl].
  change (insert_by key x (sort_by key l)
          = insert_by key' x (sort_by key' l)).
  rewrite IH by done. apply insert_by_ext; [done|].
  by rewrite sort_by_perm.
Qed.

(** Sorting by the computed keys is sorting by the first rank. *)
Lemma list_sort_nonempty l :
  Forall (λ tb, v0_col tb ≠ []) l → list_sort l = Ok (sort_by rank_col l).
Proof.
  intros Hl. unfold list_sort. rewrite keys_of_nonempty by done. simpl.
  f_equal. set (ps := zip (rank_col <$> l) l).
  assert (Forall (λ p, p.1 = (rank_col ∘ snd) p) ps) as Hps.
  { apply Forall_forall. intros [k tb] Hp.
    apply list_elem_of_lookup in Hp as [j Hj]. unfold ps in Hj.
    apply lookup_zip_with_Some in Hj as (k' & tb' & Heq & Hk & Htb).
    simplify_eq. rewrite list_lookup_fmap, Htb in Hk. simpl in *.
    by simplify_eq. }
  rewrite (sort_by_ext fst (rank_col ∘ snd) ps Hps).
  rewrite (sort_by_fmap rank_col snd ps). f_equal.
  apply snd_zip. by rewrite length_fmap.
Qed.

Lemma load_pos_nonempty files parsed :
  Forall2 (λ ft k, rank_of ft.1 = Ok k) files parsed →
  Forall (λ ft, v0_col ft.2 ≠ []) files →
  load_pos files
  = Ok (sort_by rank_col files.*2, sort_by (λ r, r) parsed).
Proof.
  intros Hparsed Hrows. unfold load_pos.
  rewrite (read_files_ok files parsed) by done. simpl.
  rewrite list_sort_nonempty by (by apply Forall_fmap). simpl.
  by rewrite take_indices_argsort.
Qed.

Lemma load_pos_inv files positions ranks :
  load_pos files = Ok (positions, ranks) →
  ∃ parsed,
    Forall2 (λ ft k, rank_of ft.1 = Ok k) files parsed ∧
    Forall (λ ft, v0_col ft.2 ≠ []) files ∧
    positions = sort_by rank_col files.*2 ∧
    ranks = sort_by (λ r, r) parsed.
Proof.
  unfold load_pos. intros Hload.
  apply rbind_ok in Hload as ([positions_raw rs] & Hread & Hload).
  apply rbind_ok in Hload as (sorted & Hsort & Hload). simplify_eq.
  apply read_files_inv in Hread as (parsed & Hparsed & -> & ->).
  simpl in *. exists parsed. split; [done|].
  assert (Forall (λ tb, v0_col tb ≠ []) files.*2) as Hrows.
  { unfold list_sort in Hsort.
    apply rbind_ok in Hsort as (ks & Hks & _).
    apply keys_of_inv in Hks as [_ Hks]. exact Hks. }
  rewrite list_sort_nonempty in Hsort by done. simplify_eq.
  split.
  { apply Forall_forall. intros ft Hft.
    apply (proj1 (Forall_forall _ _) Hrows ft.2).
    apply list_elem_of_fmap. by exists ft. }
  split; [done|].
  apply take_indices_argsort.
Qed.

(** X16.  [load_pos] returns exactly when every path holds a digit and
    every table has a row; otherwise it raises an index error. *)
Theorem load_pos_domain files :
  (Forall (λ ft, findall_digits ft.1 ≠ [] ∧ v0_col ft.2 ≠ []) files →
   ∃ positions ranks, load_pos files = Ok (positions, ranks)) ∧
  (¬ Forall (λ ft, findall_digits ft.1 ≠ [] ∧ v0_col ft.2 ≠ []) files →
   load_pos files = Raise IndexError).
Proof.
  split.
  - intros Hall.
    assert (∃ parsed, Forall2 (λ ft k, rank_of ft.1 = Ok k) files parsed)
      as [parsed Hparsed].
    { induction Hall as [|ft files [Hft _] _ [parsed IH]]; [by exists []|].
      destruct (rank_of_is_Ok _ Hft) as [k Hk].
      exists (k :: parsed). by constructor. }
    eexists _, _. apply load_pos_nonempty; [done|].
    eapply Forall_impl; [done|]. by intros ft [_ ?].
  - intros Hbad. unfold load_pos.
    destruct (decide (Forall (λ ft, findall_digits ft.1 ≠ []) files))
      as [Hdigits|Hdigits].
    + assert (∃ parsed, Forall2 (λ ft k, rank_of ft.1 = Ok k) files parsed)
        as [parsed Hparsed].
      { clear Hbad.
        induction Hdigits as [|ft files Hft _ [parsed IH]]; [by exists []|].
        destruct (rank_of_is_Ok _ Hft) as [k Hk].
        exists (k :: parsed). by constructor. }
      rewrite (read_files_ok files parsed) by done. simpl.
      unfold list_sort. rewrite keys_of_fail; [done|].
      intros Hrows. apply Hbad. apply Forall_forall. intros ft Hft. split.
      * exact (proj1 (Forall_forall _ _) Hdigits ft Hft).
      * apply (proj1 (Forall_forall _ _) Hrows ft.2).
        apply list_elem_of_fmap. by exists ft.
    + by rewrite read_files_fail.
Qed.

(** X17.  When [load_pos] returns, the tables are the tables read, in
    ascending order of the rank of their first row, and the ranks are
    the ranks of the file names in ascending order. *)
Theorem load_pos_sorted files positions ranks :
  load_pos files = Ok (positions, ranks) →
  positions ≡ₚ files.*2 ∧
  StronglySorted (λ a b, rank_col a ≤ rank_col b) positions ∧
  StronglySorted le ranks ∧
  ∃ parsed,
    Forall2 (λ ft k, rank_of ft.1 = Ok k) files parsed ∧ ranks ≡ₚ parsed.
Proof.
  intros Hload.
  apply load_pos_inv in Hload as (parsed & Hparsed & _ & -> & ->).
  split; [apply sort_by_perm|]. split; [apply sort_by_sorted|].
  split; [apply (sort_by_sorted (λ r, r))|].
  exists parsed. split; [done|]. apply sort_by_perm.
Qed.

Lemma sorted_nodup_lt (l : list nat) :
  StronglySorted le l → NoDup l → StronglySorted lt l.
Proof.
  induction 1 as [|x l Hl IH Hx]; intros Hnd; [constructor|].
  apply NoDup_cons in Hnd as [Hnot Hnd].
  constructor; [by apply IH|].
  rewrite Forall_forall in Hx |- *. intros y Hy. specialize (Hx y Hy).
  assert (x ≠ y) by (by intros ->). lia.
Qed.

(** X18.  [load_pos] establishes the contract [load_property] relies on:
    when every file is named by the rank of the first row of its table,
    the table at each position of the returned list is the table of the
    rank at that position; when moreover the ranks are distinct and
    every table has a row per timestep, the directory is aligned. *)
Theorem load_pos_aligned files positions ranks :
  load_pos files = Ok (positions, ranks) →
  Forall (λ ft, rank_of ft.1 = Ok (rank_col ft.2)) files →
  rank_col <$> positions = ranks ∧
  ∀ rankfield times,
    NoDup (rank_col <$> files.*2) →
    Forall (full_table (length times)) files.*2 →
    aligned (Directory (positions, ranks) (rankfield, times)).
Proof.
  intros Hload Hnames.
  apply load_pos_inv in Hload as (parsed & Hparsed & _ & -> & ->).
  assert (parsed = rank_col <$> files.*2) as ->.
  { clear -Hparsed Hnames.
    induction Hparsed as [|ft k files parsed Hk _ IH]; [done|].
    apply Forall_cons in Hnames as [Hft Hnames]. simpl.
    rewrite Hft in Hk. simplify_eq. f_equal. by apply IH. }
  assert (rank_col <$> sort_by rank_col files.*2
          = sort_by (λ r, r) (rank_col <$> files.*2)) as Heq.
  { apply (sort_by_fmap (λ r, r) rank_col). }
  split; [done|].
  intros rankfield times Hnd Hfull. split; simpl.
  - split; simpl.
    + by rewrite <- Heq, length_fmap.
    + by rewrite sort_by_perm.
  - apply sorted_nodup_lt; [apply (sort_by_sorted (λ r, r))|].
    by rewrite sort_by_perm.
  - done.
Qed.
End LoaderProofs.

(** * Sample runs *)

Lemma no_rank_store_holds :
  holds no_rank_store sparse_env 3 sparse_rankfield [0%Z] [] sparse_a.
Proof. by split. Qed.

Lemma long_store_holds :
  holds long_store sparse_env 3 long_rankfield [0%Z] [1; 2] sparse_a.
Proof. by split. Qed.

Lemma long_store_paintable :
  paintable long_rankfield [0%Z] [1; 2] sparse_a.
Proof.
  right. apply Forall_cons. split; [|constructor].
  unfold step_ok. simpl. split; [lia|]. split; [by eexists|lia].
Qed.

Lemma get_field_domain_witness :
  (paintable sparse_rankfield [0%Z] [1; 2] sparse_a →
   ∃ l, fst (get_field 0%Z sparse_env 3 sparse_store) = Ok l) ∧
  (¬ paintable sparse_rankfield [0%Z] [1; 2] sparse_a →
   fst (get_field 0%Z sparse_env 3 sparse_store) = Raise IndexError).
Proof.
  apply (get_field_domain 0%Z sparse_env 3 sparse_store
           sparse_rankfield [0%Z] [1; 2] sparse_a).
  exact sparse_store_holds.
Defined.

Lemma get_field_no_rank_witness :
  ∃ l h',
    get_field 0%Z sparse_env 3 no_rank_store = (Ok l, h') ∧
    h' !! l = Some (Arr3 (zeros3 0%Z (shape3 sparse_rankfield))).
Proof.
  apply (get_field_no_rank 0%Z sparse_env 3 no_rank_store
           sparse_rankfield [0%Z] sparse_a).
  exact no_rank_store_holds.
Defined.

Lemma get_field_short_axis_witness :
  ∃ l h' out,
    get_field 0%Z sparse_env 3 long_store = (Ok l, h') ∧
    h' !! l = Some (Arr3 out) ∧
    length out = length long_rankfield ∧
    ∀ t gt, length [0%Z] ≤ t → long_rankfield !! t = Some gt →
            out !! t = Some (zeros2 0%Z (shape2 gt)).
Proof.
  apply (get_field_short_axis 0%Z sparse_env 3 long_store
           long_rankfield [0%Z] [1; 2] sparse_a).
  - exact long_store_holds.
  - exact long_store_paintable.
Defined.

Lemma velocity_recognised : "velocity" ∈ recognised.
Proof. apply elem_of_app. left. by left. Qed.

Lemma velocity_prop2D : "velocity" ∈ prop2D.
Proof. by left. Qed.

Lemma load_fields_paints_series_witness :
  ∃ fs h',
    load_fields two_cells "velocity" ∅ = (Ok fs, h') ∧
    Forall2
      (λ l k,
         ∃ out,
           h' !! l = Some (Arr3 out) ∧
           ∀ t y x label,
             pixel (fst (load_rankfield two_cells)) t y x = Some label →
             (∀ tb, tb ∈ fst (load_pos two_cells) →
                    label = Z.of_nat (rank_col tb) →
                    is_Some (k tb !! t) ∧ pixel out t y x = k tb !! t) ∧
             ((∀ r, r ∈ snd (load_pos two_cells) → label ≠ Z.of_nat r) →
              pixel out t y x = Some (Fin 0)))
      (fields_of fs) (series_of "velocity").
Proof.
  apply (load_fields_paints_series two_cells "velocity" ∅).
  - exact two_cells_aligned.
  - exact two_cells_bounded.
  - exact velocity_recognised.
  - reflexivity.
Defined.

Lemma load_fields_propagates_witness :
  fst (load_fields gap_cells "velocity" ∅) = Raise IndexError.
Proof.
  apply (load_fields_propagates gap_cells "velocity" ∅ IndexError).
  - exact velocity_recognised.
  - reflexivity.
Defined.

Lemma load_fields_no_cell_witness :
  ∃ fs h',
    load_fields no_cells "velocity" ∅ = (Ok fs, h') ∧ fs ≠ FNone ∧
    ∀ l, l ∈ fields_of fs →
         h' !! l = Some (Arr3 (zeros3 (Fin 0)
                                 (shape3 (fst (load_rankfield no_cells))))).
Proof.
  apply (load_fields_no_cell no_cells "velocity" ∅).
  - reflexivity.
  - exact velocity_recognised.
Defined.

Lemma velocity_angle_of_velocity_fields_witness :
  ∃ l0 l1 l h1' h2' f0 f1 fa,
    load_fields two_cells "velocity" ∅ = (Ok (FPair l0 l1), h1') ∧
    load_fields two_cells "velocity angle" ∅ = (Ok (FArr l), h2') ∧
    h1' !! l0 = Some (Arr3 f0) ∧ h1' !! l1 = Some (Arr3 f1) ∧
    h2' !! l = Some (Arr3 fa) ∧
    ∀ t y x label,
      pixel (fst (load_rankfield two_cells)) t y x = Some label →
      ∃ u0 u1,
        pixel f0 t y x = Some u0 ∧ pixel f1 t y x = Some u1 ∧
        pixel fa t y x = Some (arctan2 u1 u0).
Proof.
  apply (velocity_angle_of_velocity_fields two_cells ∅ ∅).
  - exact two_cells_well_formed.
  - exact two_cells_bounded.
  - reflexivity.
Defined.

Lemma load_property_bad_length_witness :
  load_property ragged_cells "velocity" = Raise ValueError.
Proof.
  apply (load_property_bad_length ragged_cells "velocity" 0 ragged_cell).
  - exact velocity_recognised.
  - reflexivity.
  - simpl. repeat constructor.
  - simpl. by left.
  - reflexivity.
  - intros [[H|H] _]; simpl in H; lia.
Defined.

Lemma load_property_broadcasts_witness :
  (∀ x t, fst (columns_of "velocity") one_row_cell = [x] →
          t < length (snd (load_rankfield one_row_cells)) →
          entry (floats <$> [[5]; [5]; [5]]%R) t 0 = Some x) ∧
  (∀ x t, snd (columns_of "velocity") one_row_cell = [x] →
          t < length (snd (load_rankfield one_row_cells)) →
          entry (floats <$> [[6]; [6]; [6]]%R) t 0 = Some x).
Proof.
  apply (load_property_broadcasts one_row_cells "velocity").
  - exact velocity_prop2D.
  - reflexivity.
  - simpl. by left.
  - reflexivity.
Defined.

Lemma two_cells_first_table :
  full_table (length (snd (load_rankfield two_cells))) left_cell.
Proof. by repeat split. Qed.


Lemma velocity_angle_is_direction_witness :
  ∃ θ, entry two_cells_velocity_angle 1 0 = Some (Fin θ) ∧
       3%R = (sqrt (3 * 3 + 0 * 0) * cos θ)%R ∧
       0%R = (sqrt (3 * 3 + 0 * 0) * sin θ)%R.
Proof.
  apply (velocity_angle_is_direction two_cells two_cells_velocity_angle 0
           left_cell 1).
  - reflexivity.
  - simpl. by left.
  - reflexivity.
  - exact two_cells_first_table.
  - reflexivity.
  - reflexivity.
Defined.

Lemma rank_of_path_witness :
  Loader.rank_of (Loader.path_of "run3" "012") = Ok (Loader.int "012").
Proof.
  apply (rank_of_path "run3" "012").
  - by repeat constructor.
  - done.
Defined.

Section LastRun.
Import Stdlib.Strings.Ascii.

Lemma rank_of_last_run_witness :
  Loader.rank_of "cells_2/frame7/neo_positions_p41.csv"
  = Ok (Loader.int "41").
Proof.
  apply (rank_of_last_run "cells_2/frame7/neo_positions_" "p"%char "41"
           ".csv").
  - reflexivity.
  - by repeat constructor.
  - done.
  - by repeat constructor.
Defined.
End LastRun.


(** Read from [two_files], the directory is [two_cells]. *)
Lemma two_files_load_pos :
  Loader.load_pos two_files
  = Ok (fst (load_pos two_cells), snd (load_pos two_cells)).
Proof. reflexivity. Qed.

Lemma load_pos_sorted_witness :
  fst (load_pos two_cells) ≡ₚ two_files.*2 ∧
  StronglySorted (λ a b, rank_col a ≤ rank_col b) (fst (load_pos two_cells)) ∧
  StronglySorted le (snd (load_pos two_cells)) ∧
  ∃ parsed,
    Forall2 (λ ft k, Loader.rank_of ft.1 = Ok k) two_files parsed ∧
    snd (load_pos two_cells) ≡ₚ parsed.
Proof.
  apply (load_pos_sorted two_files).
  exact two_files_load_pos.
Defined.

Lemma load_pos_aligned_witness :
  rank_col <$> fst (load_pos two_cells) = snd (load_pos two_cells) ∧
  ∀ rankfield times,
    NoDup (rank_col <$> two_files.*2) →
    Forall (full_table (length times)) two_files.*2 →
    aligned (Directory (fst (load_pos two_cells), snd (load_pos two_cells))
               (rankfield, times)).
Proof.
  apply (load_pos_aligned two_files).
  - exact two_files_load_pos.
  - by repeat constructor.
Defined.
